(** * Real-time synchronisation layer of the CRUD / Socket.io server

    A shallow embedding of the Socket.io side of [app.js] (the connection
    registry [connectedUsers], the session handlers [all], [add], [update],
    [delete], [disconnect]) and of the HTTP handlers of [routes/todos.js],
    together with the properties of the session registry, of the event
    fan-out and of the two list/create surfaces.

    Conventions.
    - A JavaScript object used as a dictionary is a [gmap] with string keys;
      keys are transport addresses ([socket.handshake.address]), which are
      never names of [Object.prototype] members.
    - An array is a [list]; [push] appends at the end, [filter] keeps order.
    - A handler is a function from the server state (and the values it reads
      from its environment) to the new state and the list of the effects it
      performs, in program order. *)

From Stdlib Require Import Sorting.Sorted Sorting.Permutation.
From stdpp Require Import gmap strings list fin_maps fin_sets.

Local Open Scope string_scope.
Local Open Scope list_scope.
Local Open Scope nat_scope.

#[local] Set Warnings "-clear-no-such-hyp".

(** ** The connection registry ([connectedUsers] in app.js) *)

Module Registry.

(** [let connectedUsers = {};] maps an address to the array of the ids of
    the sockets opened from it. *)
Abbreviation Registry := (gmap string (list string)).

(** [connectedUsers[address]], read as an array ([undefined] has no ids). *)
Definition sessions_of (connectedUsers : Registry) (address : string)
  : list string :=
  default [] (connectedUsers !! address).

(** [Object.keys(connectedUsers).length] *)
Definition userCount (connectedUsers : Registry) : nat := size connectedUsers.

(** The tracking prologue of [io.on("connection", ...)]:
    [if (!connectedUsers[address]) connectedUsers[address] = [];
     connectedUsers[address].push(socket.id);]
    An array, even an empty one, is truthy, so only an absent key is
    initialised. *)
Definition connection_track (address id : string)
    (connectedUsers : Registry) : Registry :=
  let connectedUsers1 :=
    match connectedUsers !! address with
    | None => <[address := []]> connectedUsers
    | Some _ => connectedUsers
    end in
  <[address := sessions_of connectedUsers1 address ++ [id]]> connectedUsers1.

(** The untracking part of [socket.on("disconnect", ...)]:
    [if (connectedUsers[address]) {
       connectedUsers[address] = connectedUsers[address].filter(id => id !== socket.id);
       if (connectedUsers[address].length === 0) delete connectedUsers[address];
     }] *)
Definition disconnect_untrack (address id : string)
    (connectedUsers : Registry) : Registry :=
  match connectedUsers !! address with
  | Some ids =>
      let connectedUsers1 :=
        <[address := filter (λ x, x ≠ id) ids]> connectedUsers in
      if decide (length (sessions_of connectedUsers1 address) = 0)
      then delete address connectedUsers1
      else connectedUsers1
  | None => connectedUsers
  end.

(** Operations on the registry, as a trace alphabet. *)
Inductive RegOp :=
| Open (address id : string)
| Close (address id : string).

Definition step (cu : Registry) (op : RegOp) : Registry :=
  match op with
  | Open a s => connection_track a s cu
  | Close a s => disconnect_untrack a s cu
  end.

Definition run (ops : list RegOp) (cu : Registry) : Registry :=
  fold_left step ops cu.

(** States reached from the empty registry of a freshly started server. *)
Inductive reachable : Registry → Prop :=
| reach_init : reachable ∅
| reach_step cu op : reachable cu → reachable (step cu op).

(** Every stored array has at least one id. *)
Definition registry_inv (cu : Registry) : Prop :=
  ∀ a ids, cu !! a = Some ids → ids ≠ [].

(** *** What the trace says, independently of the registry

    The sessions that are open after a trace: opened and not closed since.
    A session is the pair of its address and its id. *)
Definition open_step (O : gset (string * string)) (op : RegOp)
  : gset (string * string) :=
  match op with
  | Open a s => {[ (a, s) ]} ∪ O
  | Close a s => O ∖ {[ (a, s) ]}
  end.

Definition open_sessions (ops : list RegOp) : gset (string * string) :=
  fold_left open_step ops ∅.

(** The addresses that have at least one open session. *)
Definition parties (O : gset (string * string)) : gset string :=
  set_map fst O.

(** The registry [cu] stores exactly the sessions of [O]. *)
Definition represents (cu : Registry) (O : gset (string * string)) : Prop :=
  ∀ a s, s ∈ sessions_of cu a ↔ (a, s) ∈ O.

End Registry.

(** ** Results of code that can throw *)

Inductive Result (A : Type) :=
| Ok (a : A)
| Throw (e : string).
Arguments Ok {A} a.
Arguments Throw {A} e.

#[global] Instance result_bind : MBind Result := λ A B k r,
  match r with
  | Ok a => k a
  | Throw e => Throw e
  end.

#[global] Instance result_fmap : FMap Result := λ A B f r,
  match r with
  | Ok a => Ok (f a)
  | Throw e => Throw e
  end.

(** ** The connection list of the legacy server

    The older entry point keeps [var address_list = new Array()], used as a
    dictionary: [address_list[address].list] is the array of socket ids.
    [delete socketid[i]] leaves a hole, written [None]. *)

Module Legacy.

Abbreviation AddressList := (gmap string (list (option string))).

(** [Object.keys(address_list).length] *)
Definition users (address_list : AddressList) : nat := size address_list.

(** [if (address_list[address]) { socketid = address_list[address].list;
      socketid.push(socket.id); ... } else { socketid = new Array();
      socketid.push(socket.id); address_list[address] = new Array();
      address_list[address].list = socketid; }] *)
Definition connection_track (address id : string)
    (address_list : AddressList) : AddressList :=
  match address_list !! address with
  | Some socketid => <[address := socketid ++ [Some id]]> address_list
  | None => <[address := [Some id]]> address_list
  end.

(** [socketid.indexOf(socket.id)]; [None] stands for [-1]. Holes are
    skipped. *)
Fixpoint indexOf (id : string) (socketid : list (option string))
  : option nat :=
  match socketid with
  | [] => None
  | x :: rest =>
      if decide (x = Some id) then Some 0
      else S <$> indexOf id rest
  end.

(** [Object.keys(socketid).length]: the number of elements that are not
    holes. *)
Definition keys_length (socketid : list (option string)) : nat :=
  length (filter (λ x, is_Some x) socketid).

(** [var socketid = address_list[address].list;
     delete socketid[socketid.indexOf(socket.id)];
     if (Object.keys(socketid).length == 0) delete address_list[address];]
    Reading [.list] of an absent entry throws; [delete socketid[-1]]
    removes nothing. *)
Definition disconnect_untrack (address id : string)
    (address_list : AddressList) : Result AddressList :=
  match address_list !! address with
  | None => Throw "TypeError"
  | Some socketid =>
      let socketid1 :=
        match indexOf id socketid with
        | Some i => <[i := None]> socketid
        | None => socketid
        end in
      let address_list1 := <[address := socketid1]> address_list in
      if decide (keys_length socketid1 = 0)
      then Ok (delete address address_list1)
      else Ok address_list1
  end.

End Legacy.

(** ** JavaScript values carried by payloads and documents *)

Module Js.

#[warnings="-register-all"]
Inductive Value :=
| Undefined
| Null
| Bool (b : bool)
| Num (n : Z)
| Str (s : string)
| Obj (props : list (string * Value)).

(** Truthiness, as used by [!x], [x || y] and [if (x)]. *)
Definition truthy (v : Value) : bool :=
  match v with
  | Undefined | Null => false
  | Bool b => b
  | Num n => negb (n =? 0)%Z
  | Str s => negb (String.eqb s EmptyString)
  | Obj _ => true
  end.

(** [a || b] *)
Definition or (a b : Value) : Value := if truthy a then a else b.

Fixpoint lookup_prop (k : string) (props : list (string * Value))
  : option Value :=
  match props with
  | [] => None
  | (k', v) :: rest => if String.eqb k k' then Some v else lookup_prop k rest
  end.

(** [v.k]: reading a property of [undefined] or [null] throws, a missing
    property reads as [undefined]. *)
Definition get (v : Value) (k : string) : Result Value :=
  match v with
  | Undefined | Null => Throw "TypeError"
  | Obj props => Ok (default Undefined (lookup_prop k props))
  | Bool _ | Num _ | Str _ => Ok Undefined
  end.

(** [v !== undefined] *)
Definition defined (v : Value) : bool :=
  match v with Undefined => false | _ => true end.

(** [v === 'true'] *)
Definition is_true_string (v : Value) : bool :=
  match v with Str s => String.eqb s "true" | _ => false end.

(** Equality of values, as a query compares a stored field with a
    filter value. *)
Fixpoint eqb (a b : Value) : bool :=
  match a, b with
  | Undefined, Undefined => true
  | Null, Null => true
  | Bool x, Bool y => Bool.eqb x y
  | Num x, Num y => (x =? y)%Z
  | Str x, Str y => String.eqb x y
  | Obj p, Obj q =>
      (fix props_eqb (p q : list (string * Value)) : bool :=
         match p, q with
         | [], [] => true
         | (k, v) :: p', (k', v') :: q' =>
             String.eqb k k' && eqb v v' && props_eqb p' q'
         | _, _ => false
         end) p q
  | _, _ => false
  end.

End Js.

Definition try_catch {A} (body : Result A) (handler : string → A) : A :=
  match body with
  | Ok a => a
  | Throw err => handler err
  end.

(** ** The record store behind the [Todo] model

    [models/todos.js] (the Mongoose schema) is not part of the sources at
    hand, and the store itself is an external collaborator.  The store is a
    list of documents; what depends on the schema is a parameter. *)

Module Store.
Import Js.

(** A stored task item ([timestamps: true] adds the two dates). *)
Record Todo := mkTodo {
  _id : nat;
  title : Value;
  description : Value;
  complete : Value;
  priority : Value;
  dueDate : Value;
  createdAt : nat;
  updatedAt : nat;
}.

(** The object literal given to [new Todo({...})]. *)
Record TodoInit := mkTodoInit {
  init_title : Value;
  init_description : Value;
  init_complete : Value;
  init_priority : Value;
  init_dueDate : Value;
}.

(** The query object built by [GET /todos]. *)
Record Filter := mkFilter {
  filter_complete : option bool;
  filter_priority : option Value;
}.

(** [{}] *)
Definition no_filter : Filter :=
  {| filter_complete := None; filter_priority := None |}.

(** What the Todo schema and Mongoose's casting decide. *)
Record Schema := mkSchema {
  (** the validators run by [save()] *)
  validate : TodoInit → bool;
  (** casting of an id given by a client to an ObjectId *)
  castObjectId : Value → option nat;
  (** the validators run on an update document ([runValidators: true]) *)
  validateUpdate : Value → bool;
  (** the document after an update document has been applied at a time *)
  applyUpdate : Value → nat → Todo → Todo;
}.

Record Store := mkStore {
  docs : list Todo;
  next_id : nat;
  (** whether the connection to the database is up; every call rejects
      when it is not *)
  up : bool;
}.

(** Whether a stored record passes a filter: each given field is compared
    with the stored one by equality.  This is what the store does for a
    filter value that is a boolean or a string against a stored field of
    that type; an object as filter value, which the store reads as an
    operator, is outside this model. *)
Definition matches (f : Filter) (t : Todo) : bool :=
  match filter_complete f with
  | Some b => eqb (complete t) (Bool b)
  | None => true
  end &&
  match filter_priority f with
  | Some p => eqb (priority t) p
  | None => true
  end.

(** [.sort({ createdAt: -1 })] *)
Fixpoint insert_desc (t : Todo) (l : list Todo) : list Todo :=
  match l with
  | [] => [t]
  | x :: rest =>
      if (createdAt x <? createdAt t)%nat then t :: l
      else x :: insert_desc t rest
  end.

Fixpoint sort_createdAt_desc (l : list Todo) : list Todo :=
  match l with
  | [] => []
  | t :: rest => insert_desc t (sort_createdAt_desc rest)
  end.

(** [await Todo.find(filter).sort({ createdAt: -1 })] *)
Definition Todo_find_sort (f : Filter) (db : Store) : Result (list Todo) :=
  if up db
  then Ok (sort_createdAt_desc (List.filter (matches f) (docs db)))
  else Throw "MongooseError".

Definition findById (oid : nat) (l : list Todo) : option Todo :=
  List.find (λ t, (_id t =? oid)%nat) l.

Section WithSchema.
Context (schema : Schema).

(** [await new Todo(init).save()] at time [now].  The values are stored as
    they are given: the casting of a value to the type of its schema path
    is not modelled. *)
Definition Todo_save (init : TodoInit) (now : nat) (db : Store)
  : Result (Store * Todo) :=
  if negb (up db) then Throw "MongooseError"
  else if negb (validate schema init) then Throw "ValidationError"
  else
    let t := {| _id := next_id db;
                title := init_title init;
                description := init_description init;
                complete := init_complete init;
                priority := init_priority init;
                dueDate := init_dueDate init;
                createdAt := now;
                updatedAt := now |} in
    Ok ({| docs := docs db ++ [t];
           next_id := S (next_id db);
           up := up db |}, t).

(** [await Todo.findByIdAndUpdate(id, update, { new: true,
    runValidators: true })]: [null] when no document has the id. *)
Definition Todo_findByIdAndUpdate (id update : Value) (now : nat)
    (db : Store) : Result (Store * option Todo) :=
  if negb (up db) then Throw "MongooseError"
  else
    match castObjectId schema id with
    | None => Throw "CastError"
    | Some oid =>
        if negb (validateUpdate schema update)
        then Throw "ValidationError"
        else
          match findById oid (docs db) with
          | None => Ok (db, None)
          | Some t =>
              let t' := applyUpdate schema update now t in
              Ok ({| docs := map (λ x, if (_id x =? oid)%nat then t' else x)
                                 (docs db);
                     next_id := next_id db;
                     up := up db |}, Some t')
          end
    end.

(** [await Todo.findByIdAndDelete(id)]: [null] when no document has the
    id. *)
Definition Todo_findByIdAndDelete (id : Value) (db : Store)
  : Result (Store * option Todo) :=
  if negb (up db) then Throw "MongooseError"
  else
    match castObjectId schema id with
    | None => Throw "CastError"
    | Some oid =>
        match findById oid (docs db) with
        | None => Ok (db, None)
        | Some t =>
            Ok ({| docs := List.filter (λ x, negb (_id x =? oid)%nat)
                                       (docs db);
                   next_id := next_id db;
                   up := up db |}, Some t)
        end
    end.

End WithSchema.

(** What an awaited store call resolved to. *)
Inductive StoreReply :=
| Saved (t : Todo)
| Updated (r : option Todo)
| Removed (r : option Todo)
| Found (todos : list Todo).

End Store.

(** ** The server: Socket.io handlers of app.js *)

Module Server.
Import Js Store.

(** Events sent to clients: name and payload. *)
Inductive Event :=
| EvCount (count : nat)          (* "count", { count: userCount } *)
| EvAll (todos : list Todo)      (* "all", todos *)
| EvAdded (todo : Todo)          (* "added", savedTodo *)
| EvUpdated (todo : Todo)        (* "updated", updatedTodo *)
| EvDeleted (id : Value)         (* "deleted", { id: data.id } *)
| EvError (message : string).    (* "error", { message } *)

(** The Socket.io call a delivery comes from. *)
Inductive Channel :=
| SocketEmit             (* socket.emit: the sender only *)
| SocketBroadcastEmit    (* socket.broadcast.emit: everyone but the sender *)
| IoEmit.                (* io.emit: everyone *)

(** Bodies of HTTP responses. *)
Inductive Body :=
| BodyList (count : nat) (data : list Todo)        (* { success: true, count, data } *)
| BodyTodo (message : string) (data : Todo)        (* { success: true, message, data } *)
| BodyError (error : string)                       (* { success: false, error } *)
| BodyErrors (errors : list Value).                (* { success: false, errors } *)

(** What a handler does, in program order. *)
Inductive Effect :=
| Ack (r : StoreReply)                              (* an awaited store call resolved *)
| Deliver (via : Channel) (to : string) (ev : Event) (* one packet to one socket *)
| Respond (status : nat) (body : Body).             (* res.status(..).json(..) *)

Record State := mkState {
  connectedUsers : Registry.Registry;
  (** the sockets Socket.io holds connected, by id *)
  sockets : list string;
  db : Store;
}.

Definition set_db (db' : Store) (st : State) : State :=
  {| connectedUsers := connectedUsers st; sockets := sockets st; db := db' |}.

Definition set_connectedUsers (cu : Registry.Registry) (st : State) : State :=
  {| connectedUsers := cu; sockets := sockets st; db := db st |}.

(** *** Socket.io *)

(** [socket.emit(ev)]: a packet for a socket that is no longer connected
    is discarded. *)
Definition socket_emit (st : State) (id : string) (ev : Event)
  : list Effect :=
  if decide (id ∈ sockets st) then [Deliver SocketEmit id ev] else [].

(** [socket.broadcast.emit(ev)] *)
Definition socket_broadcast_emit (st : State) (id : string) (ev : Event)
  : list Effect :=
  map (λ to, Deliver SocketBroadcastEmit to ev)
      (filter (λ x, x ≠ id) (sockets st)).

(** [io.emit(ev)] *)
Definition io_emit (st : State) (ev : Event) : list Effect :=
  map (λ to, Deliver IoEmit to ev) (sockets st).

(** Socket.io registers a socket before it fires ["connection"], and has
    removed it when it fires ["disconnect"]. *)
Definition io_accept (id : string) (st : State) : State :=
  {| connectedUsers := connectedUsers st;
     sockets := sockets st ++ [id];
     db := db st |}.

Definition io_remove (id : string) (st : State) : State :=
  {| connectedUsers := connectedUsers st;
     sockets := filter (λ x, x ≠ id) (sockets st);
     db := db st |}.

(** The deliveries a socket receives from a list of effects, in order, each
    with the call it comes from. *)
Definition received_via (to : string) (effects : list Effect)
  : list (Channel * Event) :=
  omap (λ e, match e with
             | Deliver via to' ev =>
                 if decide (to' = to) then Some (via, ev) else None
             | _ => None
             end) effects.

(** The events a socket receives, in order. *)
Definition received (to : string) (effects : list Effect) : list Event :=
  (received_via to effects).*2.

(** *** Connection and disconnection *)

(** The body of [io.on("connection", (socket) => ...)] up to the
    registration of the handlers. *)
Definition on_connection (address id : string) (st : State)
  : State * list Effect :=
  let st' :=
    set_connectedUsers
      (Registry.connection_track address id (connectedUsers st)) st in
  let userCount := Registry.userCount (connectedUsers st') in
  (st', socket_emit st' id (EvCount userCount)
        ++ socket_broadcast_emit st' id (EvCount userCount)).

(** [socket.on("disconnect", ...)] *)
Definition on_disconnect (address id : string) (st : State)
  : State * list Effect :=
  let st' :=
    set_connectedUsers
      (Registry.disconnect_untrack address id (connectedUsers st)) st in
  let userCount := Registry.userCount (connectedUsers st') in
  (st', io_emit st' (EvCount userCount)).

(** A client connects from [address] and gets the id [id]. *)
Definition connect (address id : string) (st : State)
  : State * list Effect :=
  on_connection address id (io_accept id st).

(** The socket [id], opened from [address], closes. *)
Definition disconnect (address id : string) (st : State)
  : State * list Effect :=
  on_disconnect address id (io_remove id st).

Section WithSchema.
Context (schema : Schema).

(** *** Commands of a session *)

(** [socket.on("all", ...)] *)
Definition on_all (id : string) (st : State) : State * list Effect :=
  try_catch
    (todos ← Todo_find_sort no_filter (db st);
     Ok (st, [Ack (Found todos)] ++ socket_emit st id (EvAll todos)))
    (λ err, (st, socket_emit st id (EvError "Failed to fetch todos"))).

(** The argument of [new Todo] in [socket.on("add", ...)]. *)
Definition add_todo_init (data : Value) : Result TodoInit :=
  title ← get data "title";
  description ← get data "description";
  priority ← get data "priority";
  Ok {| init_title := title;
        init_description := description;
        init_complete := Bool false;
        init_priority := or priority (Str "medium");
        init_dueDate := Undefined |}.

(** [socket.on("add", ...)] *)
Definition on_add (id : string) (data : Value) (now : nat) (st : State)
  : State * list Effect :=
  try_catch
    (todo ← add_todo_init data;
     '(db', savedTodo) ← Todo_save schema todo now (db st);
     let st' := set_db db' st in
     Ok (st', [Ack (Saved savedTodo)]
              ++ socket_emit st' id (EvAdded savedTodo)
              ++ socket_broadcast_emit st' id (EvAdded savedTodo)))
    (λ err, (st, socket_emit st id (EvError "Failed to create todo"))).

(** [socket.on("update", ...)] *)
Definition on_update (id : string) (data : Value) (now : nat) (st : State)
  : State * list Effect :=
  try_catch
    (data_id ← get data "id";
     updates ← get data "updates";
     '(db', updatedTodo) ←
       Todo_findByIdAndUpdate schema data_id (Obj [("$set", updates)])
                              now (db st);
     let st' := set_db db' st in
     match updatedTodo with
     | Some t =>
         Ok (st', [Ack (Updated updatedTodo)]
                  ++ socket_emit st' id (EvUpdated t)
                  ++ socket_broadcast_emit st' id (EvUpdated t))
     | None =>
         Ok (st', [Ack (Updated updatedTodo)]
                  ++ socket_emit st' id (EvError "Todo not found"))
     end)
    (λ err, (st, socket_emit st id (EvError "Failed to update todo"))).

(** [socket.on("delete", ...)] *)
Definition on_delete (id : string) (data : Value) (st : State)
  : State * list Effect :=
  try_catch
    (data_id ← get data "id";
     '(db', deletedTodo) ← Todo_findByIdAndDelete schema data_id (db st);
     let st' := set_db db' st in
     match deletedTodo with
     | Some _ =>
         Ok (st', [Ack (Removed deletedTodo)]
                  ++ socket_emit st' id (EvDeleted data_id)
                  ++ socket_broadcast_emit st' id (EvDeleted data_id))
     | None =>
         Ok (st', [Ack (Removed deletedTodo)]
                  ++ socket_emit st' id (EvError "Todo not found"))
     end)
    (λ err, (st, socket_emit st id (EvError "Failed to delete todo"))).

(** The commands of the session protocol, by the name of their event. *)
Inductive Command :=
| CmdAll                       (* "all" *)
| CmdAdd (data : Value)        (* "add" *)
| CmdUpdate (data : Value)     (* "update" *)
| CmdDelete (data : Value).    (* "delete" *)

(** Socket.io hands a packet of the socket [id] to the handler registered
    for its event name. *)
Definition handle (id : string) (cmd : Command) (now : nat) (st : State)
  : State * list Effect :=
  match cmd with
  | CmdAll => on_all id st
  | CmdAdd data => on_add id data now st
  | CmdUpdate data => on_update id data now st
  | CmdDelete data => on_delete id data st
  end.

(** A command names no stored record: its [id] is missing, does not cast
    to an ObjectId, or is the id of no document. *)
Definition names_no_record (data : Value) (db : Store) : Prop :=
  ∀ v oid, get data "id" = Ok v → castObjectId schema v = Some oid →
           findById oid (docs db) = None.

End WithSchema.

Definition is_delivery (e : Effect) : Prop :=
  match e with
  | Deliver _ _ _ => True
  | _ => False
  end.

(** Effects that deliver nothing to any socket. *)
Definition silent (effects : list Effect) : Prop :=
  Forall (λ e, ¬ is_delivery e) effects.

(** [x] was created no earlier than [y]. *)
Definition newer_first (x y : Todo) : Prop := createdAt y ≤ createdAt x.

End Server.

(** ** What a session and the other sockets see of a write *)

Module Session.
Import Js Store Server.

(** The outcome [out] of a handler run for the socket [id] in the state
    [st] acknowledges the write that left the store [db'] with the event
    [ev]: the state is [st] with that store, the sender receives exactly
    [ev], sent with [socket.emit], and every other open socket receives
    exactly [ev], sent with [socket.broadcast.emit]. *)
Definition acknowledged (id : string) (st : State) (db' : Store)
    (ev : Event) (out : State * list Effect) : Prop :=
  out.1 = set_db db' st
  ∧ received_via id out.2 = [(SocketEmit, ev)]
  ∧ ∀ other, other ∈ sockets st → other ≠ id →
      received_via other out.2 = [(SocketBroadcastEmit, ev)].

End Session.

(** ** The HTTP handlers of routes/todos.js *)

Module Http.
Import Js Store Server.

Record Request := mkRequest {
  params : Value;   (* req.params *)
  query : Value;    (* req.query *)
  body : Value;     (* req.body *)
}.

(** The routes that carry express-validator chains. *)
Inductive Route := PostTodo | PutTodo | PatchTodo | DeleteTodo.

(** [updateFields.k = v] guarded by [if (v !== undefined)] *)
Definition field_if_defined (k : string) (v : Value)
  : list (string * Value) :=
  if defined v then [(k, v)] else [].

(** The argument of [new Todo] in [router.post("/")]. *)
Definition post_todo_init (body : Value) : Result TodoInit :=
  title ← get body "title";
  description ← get body "description";
  complete ← get body "complete";
  priority ← get body "priority";
  dueDate ← get body "dueDate";
  Ok {| init_title := title;
        init_description := description;
        init_complete := or complete (Bool false);
        init_priority := or priority (Str "medium");
        init_dueDate := dueDate |}.

(** [router.get("/")] *)
Definition get_todos (req : Request) (st : State) : State * list Effect :=
  try_catch
    (complete ← get (query req) "complete";
     priority ← get (query req) "priority";
     let filter :=
       {| filter_complete :=
            if defined complete then Some (is_true_string complete)
            else None;
          filter_priority :=
            if truthy priority then Some priority else None |} in
     todos ← Todo_find_sort filter (db st);
     Ok (st, [Ack (Found todos);
              Respond 200 (BodyList (length todos) todos)]))
    (λ err, (st, [Respond 500 (BodyError err)])).

Section WithSchema.
Context (schema : Schema).

(** The outcome of the express-validator chains of a route on a
    request: the request as the sanitizers leave it, and
    [validationResult(req).array()]. *)
Context (validationResult : Route → Request → Request * list Value).

(** The chains followed by [handleValidationErrors]. *)
Definition validated (route : Route)
    (handler : Request → nat → State → State * list Effect)
    (req : Request) (now : nat) (st : State) : State * list Effect :=
  let '(req', errors) := validationResult route req in
  match errors with
  | [] => handler req' now st
  | _ :: _ => (st, [Respond 400 (BodyErrors errors)])
  end.

(** The last handler of [router.post("/")]. *)
Definition post_todo_handler (req : Request) (now : nat) (st : State)
  : State * list Effect :=
  try_catch
    (todo ← post_todo_init (body req);
     '(db', savedTodo) ← Todo_save schema todo now (db st);
     Ok (set_db db' st,
         [Ack (Saved savedTodo);
          Respond 201 (BodyTodo "Todo created successfully" savedTodo)]))
    (λ err, (st, [Respond 500 (BodyError err)])).

(** The last handler of [router.put("/:todoId")]. *)
Definition put_todo_handler (req : Request) (now : nat) (st : State)
  : State * list Effect :=
  try_catch
    (todoId ← get (params req) "todoId";
     title ← get (body req) "title";
     description ← get (body req) "description";
     complete ← get (body req) "complete";
     priority ← get (body req) "priority";
     dueDate ← get (body req) "dueDate";
     '(db', updatedTodo) ←
       Todo_findByIdAndUpdate schema todoId
         (Obj [("title", title);
               ("description", description);
               ("complete", complete);
               ("priority", or priority (Str "medium"));
               ("dueDate", dueDate);
               ("updatedAt", Num (Z.of_nat now))])
         now (db st);
     match updatedTodo with
     | None =>
         Ok (set_db db' st,
             [Ack (Updated updatedTodo);
              Respond 404 (BodyError "Todo not found")])
     | Some t =>
         Ok (set_db db' st,
             [Ack (Updated updatedTodo);
              Respond 200 (BodyTodo "Todo updated successfully" t)])
     end)
    (λ err, (st, [Respond 500 (BodyError err)])).

(** The last handler of [router.patch("/:todoId")]. *)
Definition patch_todo_handler (req : Request) (now : nat) (st : State)
  : State * list Effect :=
  try_catch
    (title ← get (body req) "title";
     description ← get (body req) "description";
     complete ← get (body req) "complete";
     priority ← get (body req) "priority";
     dueDate ← get (body req) "dueDate";
     let updateFields :=
       field_if_defined "title" title
       ++ field_if_defined "description" description
       ++ field_if_defined "complete" complete
       ++ field_if_defined "priority" priority
       ++ field_if_defined "dueDate" dueDate
       ++ [("updatedAt", Num (Z.of_nat now))] in
     todoId ← get (params req) "todoId";
     '(db', updatedTodo) ←
       Todo_findByIdAndUpdate schema todoId
         (Obj [("$set", Obj updateFields)]) now (db st);
     match updatedTodo with
     | None =>
         Ok (set_db db' st,
             [Ack (Updated updatedTodo);
              Respond 404 (BodyError "Todo not found")])
     | Some t =>
         Ok (set_db db' st,
             [Ack (Updated updatedTodo);
              Respond 200 (BodyTodo "Todo updated successfully" t)])
     end)
    (λ err, (st, [Respond 500 (BodyError err)])).

(** The last handler of [router.delete("/:todoId")]. *)
Definition delete_todo_handler (req : Request) (now : nat) (st : State)
  : State * list Effect :=
  try_catch
    (todoId ← get (params req) "todoId";
     '(db', removedTodo) ← Todo_findByIdAndDelete schema todoId (db st);
     match removedTodo with
     | None =>
         Ok (set_db db' st,
             [Ack (Removed removedTodo);
              Respond 404 (BodyError "Todo not found")])
     | Some t =>
         Ok (set_db db' st,
             [Ack (Removed removedTodo);
              Respond 200 (BodyTodo "Todo deleted successfully" t)])
     end)
    (λ err, (st, [Respond 500 (BodyError err)])).

(** The four mutating routes, with their validation. *)
Definition post_todo := validated PostTodo post_todo_handler.
Definition put_todo := validated PutTodo put_todo_handler.
Definition patch_todo := validated PatchTodo patch_todo_handler.
Definition delete_todo := validated DeleteTodo delete_todo_handler.

End WithSchema.

End Http.

(** ** A concrete schema and validation, to run the handlers

    Titles of at least three characters are valid, ids are numbers, an
    update replaces the fields it names. *)

Module Demo.
Import Js Store Server Http.

Definition schema : Schema :=
  {| validate := λ init,
       match init_title init with
       | Str s => (3 <=? String.length s)%nat
       | _ => false
       end;
     castObjectId := λ v,
       match v with
       | Num n => if (0 <=? n)%Z then Some (Z.to_nat n) else None
       | _ => None
       end;
     validateUpdate := λ _, true;
     applyUpdate := λ update now t,
       let fields :=
         match get update "$set" with
         | Ok (Obj props) => props
         | _ => match update with Obj props => props | _ => [] end
         end in
       {| _id := _id t;
          title := default (title t) (lookup_prop "title" fields);
          description :=
            default (description t) (lookup_prop "description" fields);
          complete := default (complete t) (lookup_prop "complete" fields);
          priority := default (priority t) (lookup_prop "priority" fields);
          dueDate := default (dueDate t) (lookup_prop "dueDate" fields);
          createdAt := createdAt t;
          updatedAt := now |} |}.

(** Validation that accepts every request and changes nothing. *)
Definition validationResult (route : Route) (req : Request)
  : Request * list Value := (req, []).

Definition empty_store : Store := {| docs := []; next_id := 0; up := true |}.

Definition initial : State :=
  {| connectedUsers := ∅; sockets := []; db := empty_store |}.

(** Two sockets open from one address, no record yet. *)
Definition two_open : State :=
  {| connectedUsers := {[ "10.0.0.7" := ["A"; "B"] ]};
     sockets := ["A"; "B"];
     db := empty_store |}.

(** The record the first [add] of a title saves at time [now]. *)
Definition first_todo (t : string) (now : nat) : Todo :=
  {| _id := 0;
     title := Str t;
     description := Undefined;
     complete := Bool false;
     priority := Str "medium";
     dueDate := Undefined;
     createdAt := now;
     updatedAt := now |}.

(** The same two sockets once the record titled "xyz" has been added. *)
Definition with_record : State :=
  {| connectedUsers := {[ "10.0.0.7" := ["A"; "B"] ]};
     sockets := ["A"; "B"];
     db := {| docs := [first_todo "xyz" 5]; next_id := 1; up := true |} |}.

(** The record a create of a title saves second, at time [now]. *)
Definition second_todo (t : string) (now : nat) : Todo :=
  {| _id := 1;
     title := Str t;
     description := Undefined;
     complete := Bool false;
     priority := Str "medium";
     dueDate := Undefined;
     createdAt := now;
     updatedAt := now |}.

(** The record titled "xyz" once an update at time 7 has set [complete]. *)
Definition completed_todo : Todo :=
  {| _id := 0;
     title := Str "xyz";
     description := Undefined;
     complete := Bool true;
     priority := Str "medium";
     dueDate := Undefined;
     createdAt := 5;
     updatedAt := 7 |}.

(** The record a first create of a title with [complete: true] saves over
    HTTP at time [now]. *)
Definition first_todo_completed (t : string) (now : nat) : Todo :=
  {| _id := 0;
     title := Str t;
     description := Undefined;
     complete := Bool true;
     priority := Str "medium";
     dueDate := Undefined;
     createdAt := now;
     updatedAt := now |}.

(** A store that is up, with the given records and next id. *)
Definition store_of (l : list Todo) (next : nat) : Store :=
  {| docs := l; next_id := next; up := true |}.

(** One socket open, no record yet. *)
Definition one_open : State :=
  {| connectedUsers := {[ "10.0.0.9" := ["C"] ]};
     sockets := ["C"];
     db := empty_store |}.

End Demo.

(** ** Traces of the legacy connection list *)

Module LegacyTrace.
Import Registry.

(** The ids an array still holds: its elements that are not holes, in
    order ([Object.keys(socketid)] lists their indices). *)
Definition live (socketid : list (option string)) : list string :=
  omap (λ x, x) socketid.

(** One connection or disconnection; a disconnection can throw. *)
Definition step (address_list : Legacy.AddressList) (op : RegOp)
  : Result Legacy.AddressList :=
  match op with
  | Open a s => Ok (Legacy.connection_track a s address_list)
  | Close a s => Legacy.disconnect_untrack a s address_list
  end.

(** A trace; an exception thrown by a handler ends it. *)
Fixpoint run (ops : list RegOp) (address_list : Legacy.AddressList)
  : Result Legacy.AddressList :=
  match ops with
  | [] => Ok address_list
  | op :: rest =>
      address_list1 ← step address_list op;
      run rest address_list1
  end.

(** The traces Socket.io produces: every connection gets an id that was
    never used, and ["disconnect"] fires for a socket that is connected,
    with the address it connected from.  [opened] are the sessions open
    so far, [used] the ids handed out so far. *)
Fixpoint socket_io_trace (opened : gset (string * string))
    (used : gset string) (ops : list RegOp) : Prop :=
  match ops with
  | [] => True
  | Open a s :: rest =>
      (s ∉ used)
      ∧ socket_io_trace ({[ (a, s) ]} ∪ opened) ({[ s ]} ∪ used) rest
  | Close a s :: rest =>
      ((a, s) ∈ opened)
      ∧ socket_io_trace (opened ∖ {[ (a, s) ]}) used rest
  end.

(** The current registry holds, per address, the ids the legacy list
    still holds. *)
Definition agree (address_list : Legacy.AddressList)
    (connectedUsers : Registry) : Prop :=
  connectedUsers = live <$> address_list.

(** No array of the legacy list holds an id twice. *)
Definition live_ids_unique (address_list : Legacy.AddressList) : Prop :=
  ∀ a l, address_list !! a = Some l → NoDup (live l).

End LegacyTrace.

(** ** The connection handlers of the legacy server *)

Module LegacyServer.

(** The two events the legacy connection code sends, both with the payload
    [{ count: users }]. *)
Inductive Event :=
| EvCount (count : nat)    (* "count" *)
| EvAll (count : nat).     (* "all" *)

Record State := mkState {
  address_list : Legacy.AddressList;
  (** the sockets Socket.io holds connected, by id *)
  sockets : list string;
}.

(** [socket.emit(ev)]: discarded when the socket is gone. *)
Definition socket_emit (st : State) (id : string) (ev : Event)
  : list (string * Event) :=
  if decide (id ∈ sockets st) then [(id, ev)] else [].

(** [socket.broadcast.emit(ev)] *)
Definition socket_broadcast_emit (st : State) (id : string) (ev : Event)
  : list (string * Event) :=
  map (λ to, (to, ev)) (filter (λ x, x ≠ id) (sockets st)).

(** [socket.broadcast.to(room).emit(ev)]: the sockets of the room, the
    sender excepted.  No handler joins a room, so a socket is in one room
    only, the one Socket.io names after its id. *)
Definition socket_broadcast_to_emit (st : State) (id room : string)
    (ev : Event) : list (string * Event) :=
  map (λ to, (to, ev))
      (filter (λ x, x = room) (filter (λ x, x ≠ id) (sockets st))).

(** The events a socket receives, in order. *)
Definition received (to : string) (deliveries : list (string * Event))
  : list Event :=
  (filter (λ d, fst d = to) deliveries).*2.

(** [sio.sockets.on("connection", function (socket) {...})] up to the
    registration of the handlers. *)
Definition on_connection (address id : string) (st : State)
  : State * list (string * Event) :=
  let st' := {| address_list :=
                  Legacy.connection_track address id (address_list st);
                sockets := sockets st |} in
  let users := Legacy.users (address_list st') in
  (st', socket_emit st' id (EvCount users)
        ++ socket_broadcast_emit st' id (EvCount users)
        ++ socket_broadcast_to_emit st' id id (EvAll users)).

(** [socket.on("disconnect", function () {...})] *)
Definition on_disconnect (address id : string) (st : State)
  : Result (State * list (string * Event)) :=
  address_list1 ← Legacy.disconnect_untrack address id (address_list st);
  let st' := {| address_list := address_list1; sockets := sockets st |} in
  let users := Legacy.users address_list1 in
  Ok (st', socket_emit st' id (EvCount users)
           ++ socket_broadcast_emit st' id (EvCount users)).

(** Socket.io registers the socket, then fires ["connection"]. *)
Definition connect (address id : string) (st : State)
  : State * list (string * Event) :=
  on_connection address id
    {| address_list := address_list st; sockets := sockets st ++ [id] |}.

(** Socket.io removes the socket, then fires ["disconnect"]. *)
Definition disconnect (address id : string) (st : State)
  : Result (State * list (string * Event)) :=
  on_disconnect address id
    {| address_list := address_list st;
       sockets := filter (λ x, x ≠ id) (sockets st) |}.

End LegacyServer.

(** ** The example middleware: API key and roles *)

Module Middleware.

(** [req.user] *)
Record User := mkUser { user_id : string; role : string }.

(** A middleware either answers or calls [next()], leaving [req.user]. *)
Inductive Outcome :=
| Reply (status : nat) (error : string)   (* res.status(..).json({ success: false, error }) *)
| Next (user : option User).              (* next() *)

(** [authMiddleware]: [apiKey] is [req.headers['x-api-key']] and [API_KEY]
    is [process.env.API_KEY], each a string or [undefined]; [user] is
    [req.user] on entry. *)
Definition authMiddleware (API_KEY apiKey : option string)
    (user : option User) : Outcome :=
  match apiKey with
  | None | Some EmptyString =>
      Reply 401 "No API key provided. Include x-api-key in headers."
  | Some key =>
      if bool_decide (apiKey = API_KEY) || bool_decide (key = "demo-key-12345")
      then Next (Some {| user_id := "user-123"; role := "admin" |})
      else Reply 403 "Invalid API key"
  end.

(** [requireRole(...roles)] *)
Definition requireRole (roles : list string) (user : option User) : Outcome :=
  match user with
  | None => Reply 401 "Authentication required"
  | Some u =>
      if bool_decide (role u ∈ roles) then Next user
      else Reply 403 "Insufficient permissions"
  end.

(** Two middlewares in a row: the second runs when the first calls
    [next()]. *)
Definition chain (first second : option User → Outcome)
    (user : option User) : Outcome :=
  match first user with
  | Reply status error => Reply status error
  | Next user' => second user'
  end.

(** [req.user] as [authMiddleware] sets it. *)
Definition demo_admin : User := {| user_id := "user-123"; role := "admin" |}.

End Middleware.

(** ** More of the HTTP surface *)

Module HttpMore.
Import Js Store Server Http.

(** The responses among the effects of a handler, in order. *)
Definition responses (effects : list Effect) : list (nat * Body) :=
  omap (λ e, match e with
             | Respond status body => Some (status, body)
             | _ => None
             end) effects.

(** The store replies among the effects of a handler, in order. *)
Definition acks (effects : list Effect) : list StoreReply :=
  omap (λ e, match e with Ack r => Some r | _ => None end) effects.

(** A handler answers exactly once, as its last effect, with one of the
    listed status codes. *)
Definition answers_once_with (statuses : list nat) (effects : list Effect)
  : Prop :=
  ∃ status body,
    responses effects = [(status, body)]
    ∧ last effects = Some (Respond status body)
    ∧ status ∈ statuses.

(** The status codes of the answers among the effects. *)
Definition statuses_of (effects : list Effect) : list nat :=
  (responses effects).*1.

(** What every route of the todos router keeps to: one answer, sent last,
    with a status of its list; the sockets and [connectedUsers] are left
    alone; and unless the status is 200 or 201 the state is unchanged. *)
Definition route_contract (statuses : list nat) (st : State)
    (out : State * list Effect) : Prop :=
  answers_once_with statuses out.2
  ∧ sockets out.1 = sockets st
  ∧ connectedUsers out.1 = connectedUsers st
  ∧ (∀ status, status ∈ statuses_of out.2 →
               status ≠ 200 → status ≠ 201 → out.1 = st).

(** [updateFields] of [router.patch("/:todoId")], from the five fields read
    off the body. *)
Definition patch_updateFields (title description complete priority
    dueDate : Value) (now : nat) : list (string * Value) :=
  field_if_defined "title" title
  ++ field_if_defined "description" description
  ++ field_if_defined "complete" complete
  ++ field_if_defined "priority" priority
  ++ field_if_defined "dueDate" dueDate
  ++ [("updatedAt", Num (Z.of_nat now))].

(** The update document of [router.put("/:todoId")], from the five fields
    read off the body. *)
Definition put_update (title description complete priority dueDate : Value)
    (now : nat) : Value :=
  Obj [("title", title);
       ("description", description);
       ("complete", complete);
       ("priority", or priority (Str "medium"));
       ("dueDate", dueDate);
       ("updatedAt", Num (Z.of_nat now))].

(** The query object [GET /todos] builds from [req.query]. *)
Definition get_todos_filter (complete priority : Value) : Filter :=
  {| filter_complete :=
       if defined complete then Some (is_true_string complete) else None;
     filter_priority := if truthy priority then Some priority else None |}.

(** A stored record as Mongoose leaves it after casting to the schema
    types: [complete] is a boolean, [priority] a string. *)
Definition cast_to_schema (t : Todo) : Prop :=
  (∃ b, complete t = Bool b) ∧ (∃ s, priority t = Str s).

(** A query parameter that is missing or a plain string (not an array or
    an object, which the query parser builds from [a[]=..] and [a[k]=..]
    and which the store would read as an operator). *)
Definition plain_parameter (v : Value) : Prop :=
  v = Undefined ∨ ∃ s, v = Str s.

(** Every stored id is below the next id the store hands out. *)
Definition ids_below_next (db : Store) : Prop :=
  ∀ t, t ∈ docs db → _id t < next_id db.

(** Body of the answers of [GET /todos/:todoId]. *)
Inductive ReadBody :=
| ReadData (data : Todo)              (* { success: true, data: todo } *)
| ReadError (error : string)          (* { success: false, error } *)
| ReadErrors (errors : list Value).   (* { success: false, errors } *)

Section WithSchema.
Context (schema : Schema).

(** [await Todo.findById(id)]: [null] when no document has the id. *)
Definition Todo_findById (id : Value) (db : Store) : Result (option Todo) :=
  if negb (up db) then Throw "MongooseError"
  else
    match castObjectId schema id with
    | None => Throw "CastError"
    | Some oid => Ok (findById oid (docs db))
    end.

(** The last handler of [router.get("/:todoId")]: status and body of its
    answer.  It has no other effect. *)
Definition get_todo_handler (req : Request) (st : State) : nat * ReadBody :=
  try_catch
    (todoId ← get (params req) "todoId";
     todo ← Todo_findById todoId (db st);
     match todo with
     | None => Ok (404, ReadError "Todo not found")
     | Some t => Ok (200, ReadData t)
     end)
    (λ err, (500, ReadError err)).

(** The outcome of the [param("todoId").isMongoId()] chain on a request. *)
Context (validationResult : Request → Request * list Value).

(** [router.get("/:todoId")] with its chain and
    [handleValidationErrors]. *)
Definition get_todo (req : Request) (st : State) : nat * ReadBody :=
  let '(req', errors) := validationResult req in
  match errors with
  | [] => get_todo_handler req' st
  | _ :: _ => (400, ReadErrors errors)
  end.

End WithSchema.

End HttpMore.

(** * Properties *)

(** ** The connection registry *)

Section RegistryFacts.
Import Registry.
Implicit Types (cu : Registry) (a b s : string)
               (O : gset (string * string)).

(** *** Lookup equations *)

Lemma connection_track_lookup_eq a s (cu : Registry) :
  connection_track a s cu !! a = Some (sessions_of cu a ++ [s]).
Proof.
  unfold connection_track, sessions_of.
  destruct (cu !! a) as [ids|] eqn:E.
  - by rewrite lookup_insert_eq, E.
  - by rewrite lookup_insert_eq, lookup_insert_eq.
Qed.

Lemma connection_track_lookup_ne a b s (cu : Registry) :
  a ≠ b → connection_track a s cu !! b = cu !! b.
Proof.
  intros Hab. unfold connection_track.
  destruct (cu !! a); by rewrite !lookup_insert_ne.
Qed.

Lemma disconnect_untrack_lookup_eq a s (cu : Registry) :
  disconnect_untrack a s cu !! a =
    match cu !! a with
    | Some ids =>
        if decide (filter (λ x, x ≠ s) ids = []) then None
        else Some (filter (λ x, x ≠ s) ids)
    | None => None
    end.
Proof.
  unfold disconnect_untrack, sessions_of.
  destruct (cu !! a) as [ids|] eqn:E; [|done].
  rewrite lookup_insert_eq. simpl.
  destruct (filter (λ x, x ≠ s) ids) as [|x l] eqn:F; simpl.
  - by rewrite lookup_delete_eq.
  - by rewrite lookup_insert_eq.
Qed.

Lemma disconnect_untrack_lookup_ne a b s (cu : Registry) :
  a ≠ b → disconnect_untrack a s cu !! b = cu !! b.
Proof.
  intros Hab. unfold disconnect_untrack.
  destruct (cu !! a) as [ids|]; [|done].
  case_decide.
  - by rewrite lookup_delete_ne, lookup_insert_ne.
  - by rewrite lookup_insert_ne.
Qed.

Lemma sessions_of_track_eq a s cu :
  sessions_of (connection_track a s cu) a = sessions_of cu a ++ [s].
Proof.
  unfold sessions_of at 1. by rewrite connection_track_lookup_eq.
Qed.

Lemma sessions_of_track_ne a b s cu :
  a ≠ b → sessions_of (connection_track a s cu) b = sessions_of cu b.
Proof.
  intros Hab. unfold sessions_of. by rewrite connection_track_lookup_ne.
Qed.

Lemma sessions_of_untrack_eq a s cu :
  sessions_of (disconnect_untrack a s cu) a =
    filter (λ x, x ≠ s) (sessions_of cu a).
Proof.
  unfold sessions_of. rewrite disconnect_untrack_lookup_eq.
  destruct (cu !! a) as [ids|]; simpl; [|done].
  case_decide as E; simpl; [by rewrite E | done].
Qed.

Lemma sessions_of_untrack_ne a b s cu :
  a ≠ b → sessions_of (disconnect_untrack a s cu) b = sessions_of cu b.
Proof.
  intros Hab. unfold sessions_of. by rewrite disconnect_untrack_lookup_ne.
Qed.

(** *** The invariant *)

Lemma registry_inv_empty : registry_inv ∅.
Proof. intros a ids. by rewrite lookup_empty. Qed.

Lemma registry_inv_track a s cu :
  registry_inv cu → registry_inv (connection_track a s cu).
Proof.
  intros Hinv b ids. destruct (decide (a = b)) as [<-|Hab].
  - rewrite connection_track_lookup_eq. intros [= <-].
    by destruct (sessions_of cu a).
  - rewrite connection_track_lookup_ne by done. apply Hinv.
Qed.

Lemma registry_inv_untrack a s cu :
  registry_inv cu → registry_inv (disconnect_untrack a s cu).
Proof.
  intros Hinv b ids. destruct (decide (a = b)) as [<-|Hab].
  - rewrite disconnect_untrack_lookup_eq.
    destruct (cu !! a) as [l|]; [|done].
    case_decide; [done|]. by intros [= <-].
  - rewrite disconnect_untrack_lookup_ne by done. apply Hinv.
Qed.

Lemma registry_inv_step cu op : registry_inv cu → registry_inv (step cu op).
Proof.
  destruct op; simpl;
    auto using registry_inv_track, registry_inv_untrack.
Qed.

Lemma registry_inv_run ops cu : registry_inv cu → registry_inv (run ops cu).
Proof.
  revert cu. induction ops as [|op ops IH]; intros cu Hinv; [done|].
  apply IH, registry_inv_step, Hinv.
Qed.

Lemma reachable_inv cu : reachable cu → registry_inv cu.
Proof.
  induction 1; auto using registry_inv_empty, registry_inv_step.
Qed.

Lemma reachable_run ops cu : reachable cu → reachable (run ops cu).
Proof.
  revert cu. induction ops as [|op ops IH]; intros cu Hr; [done|].
  apply IH. by constructor.
Qed.

(** The reachable registries are the results of the traces. *)
Lemma reachable_iff_run cu : reachable cu ↔ ∃ ops, cu = run ops ∅.
Proof.
  split.
  - induction 1 as [|cu op _ [ops ->]].
    + by exists [].
    + exists (ops ++ [op]). unfold run. by rewrite fold_left_app.
  - intros [ops ->]. apply reachable_run. constructor.
Qed.

(** An entry is present exactly when it has a session. *)
Lemma registry_inv_entry cu :
  registry_inv cu ↔ ∀ a, is_Some (cu !! a) ↔ sessions_of cu a ≠ [].
Proof.
  unfold sessions_of. split.
  - intros Hinv a. split.
    + intros [ids E]. rewrite E. simpl. by eapply Hinv.
    + destruct (cu !! a); [eauto | done].
  - intros H a ids E. specialize (H a). rewrite E in H. simpl in H.
    apply H. eauto.
Qed.

(** *** The registry against the trace *)

Lemma represents_empty : represents ∅ ∅.
Proof.
  intros a s. unfold sessions_of. rewrite lookup_empty. simpl.
  set_solver.
Qed.

Lemma represents_track a s cu O :
  represents cu O → represents (connection_track a s cu) ({[ (a, s) ]} ∪ O).
Proof.
  intros Hrep b t. destruct (decide (a = b)) as [<-|Hab].
  - rewrite sessions_of_track_eq, elem_of_app, list_elem_of_singleton.
    rewrite (Hrep a t), elem_of_union, elem_of_singleton. naive_solver.
  - rewrite sessions_of_track_ne by done.
    rewrite (Hrep b t), elem_of_union, elem_of_singleton. naive_solver.
Qed.

Lemma represents_untrack a s cu O :
  represents cu O → represents (disconnect_untrack a s cu) (O ∖ {[ (a, s) ]}).
Proof.
  intros Hrep b t. destruct (decide (a = b)) as [<-|Hab].
  - rewrite sessions_of_untrack_eq, list_elem_of_filter.
    rewrite (Hrep a t), elem_of_difference, elem_of_singleton. naive_solver.
  - rewrite sessions_of_untrack_ne by done.
    rewrite (Hrep b t), elem_of_difference, elem_of_singleton. naive_solver.
Qed.

Lemma represents_run ops cu O :
  represents cu O → represents (run ops cu) (fold_left open_step ops O).
Proof.
  revert cu O. induction ops as [|op ops IH]; intros cu O Hrep; [done|].
  simpl. apply IH. destruct op; simpl;
    auto using represents_track, represents_untrack.
Qed.

Lemma represents_dom cu O :
  registry_inv cu → represents cu O → dom cu = parties O.
Proof.
  intros Hinv Hrep. apply set_eq. intros a.
  unfold parties. rewrite elem_of_dom, elem_of_map.
  rewrite (proj1 (registry_inv_entry cu) Hinv a). split.
  - intros Hne. destruct (sessions_of cu a) as [|s l] eqn:E; [done|].
    exists (a, s). split; [done|]. apply Hrep. rewrite E. left.
  - intros [[a' s] [-> Hin]]. simpl. apply Hrep in Hin.
    intros E. rewrite E in Hin. by apply not_elem_of_nil in Hin.
Qed.

Lemma userCount_parties cu O :
  registry_inv cu → represents cu O → userCount cu = size (parties O).
Proof.
  intros Hinv Hrep. unfold userCount.
  rewrite <- (represents_dom cu O Hinv Hrep). symmetry. apply size_dom.
Qed.

Lemma size_parties_le O : size (parties O) ≤ size O.
Proof.
  unfold parties. induction O as [|x X Hx IH] using set_ind_L.
  - by rewrite set_map_empty, !size_empty.
  - rewrite set_map_union_L, set_map_singleton_L.
    rewrite size_union_alt, size_singleton.
    rewrite (size_union {[x]} X) by set_solver. rewrite size_singleton.
    pose proof (subseteq_size
      ((set_map fst X : gset string) ∖ {[x.1]}) (set_map fst X)) as Hle.
    specialize (Hle ltac:(set_solver)). lia.
Qed.

(** Two open sessions of one address: fewer parties than sessions. *)
Lemma size_parties_lt O a s1 s2 :
  s1 ≠ s2 → (a, s1) ∈ O → (a, s2) ∈ O → size (parties O) < size O.
Proof.
  intros Hne H1 H2.
  assert (parties O = parties (O ∖ {[ (a, s1) ]})) as ->.
  { unfold parties. apply set_eq. intros b. rewrite !elem_of_map. split.
    - intros [[b' t] [-> Hin]]. simpl.
      destruct (decide ((b', t) = (a, s1))) as [[= -> ->]|Hd].
      + exists (a, s2). split; [done|].
        rewrite elem_of_difference, elem_of_singleton. split; [done|].
        intros [= E]. by apply Hne.
      + exists (b', t). split; [done|].
        rewrite elem_of_difference, elem_of_singleton. done.
    - intros [y [-> Hin]]. exists y. split; [done|].
      by apply elem_of_difference in Hin as [Hin _]. }
  pose proof (size_parties_le (O ∖ {[ (a, s1) ]})) as Hle.
  rewrite size_difference in Hle by (by apply singleton_subseteq_l).
  rewrite size_singleton in Hle.
  assert (size O ≠ 0).
  { intros E. apply size_empty_inv in E. apply (not_elem_of_empty (C:=gset _) (a, s1)).
    by rewrite <- E. }
  lia.
Qed.

End RegistryFacts.

Section RegistryClaims.
Import Registry.
Implicit Types (cu : Registry) (a b s : string).

Lemma filter_ne_all (s : string) (l : list string) :
  s ∉ l → filter (λ x, x ≠ s) l = l.
Proof.
  induction l as [|x l IH]; intros Hs; [done|].
  apply not_elem_of_cons in Hs as [Hx Hl].
  rewrite filter_cons_True by done. by rewrite IH.
Qed.

Lemma filter_ne_twice (s : string) (l : list string) :
  filter (λ x, x ≠ s) (filter (λ x, x ≠ s) l) = filter (λ x, x ≠ s) l.
Proof.
  apply filter_ne_all. rewrite list_elem_of_filter. by intros [? _].
Qed.

Lemma userCount_track_present a s cu :
  is_Some (cu !! a) → userCount (connection_track a s cu) = userCount cu.
Proof.
  intros [ids E]. unfold userCount, connection_track. rewrite E.
  apply map_size_insert_Some. eauto.
Qed.

Lemma disconnect_untrack_absent a s cu :
  registry_inv cu → s ∉ sessions_of cu a → disconnect_untrack a s cu = cu.
Proof.
  intros Hinv Hs. apply map_eq. intros b.
  destruct (decide (a = b)) as [<-|Hab].
  - rewrite disconnect_untrack_lookup_eq. unfold sessions_of in Hs.
    destruct (cu !! a) as [ids|] eqn:E; [|done]. simpl in Hs.
    rewrite filter_ne_all by done.
    case_decide as Hnil; [|done]. by apply Hinv in E.
  - by apply disconnect_untrack_lookup_ne.
Qed.

Lemma disconnect_untrack_twice a s cu :
  disconnect_untrack a s (disconnect_untrack a s cu) = disconnect_untrack a s cu.
Proof.
  apply map_eq. intros b. destruct (decide (a = b)) as [<-|Hab].
  - rewrite (disconnect_untrack_lookup_eq a s (disconnect_untrack a s cu)).
    rewrite disconnect_untrack_lookup_eq.
    destruct (cu !! a) as [ids|]; [|done].
    case_decide as Hnil; [done|].
    rewrite filter_ne_twice. by rewrite decide_False.
  - by rewrite !disconnect_untrack_lookup_ne.
Qed.

(** Opening a new session and closing it again restores the registry. *)
Lemma untrack_track a s cu :
  registry_inv cu → s ∉ sessions_of cu a →
  disconnect_untrack a s (connection_track a s cu) = cu.
Proof.
  intros Hinv Hs. apply map_eq. intros b.
  destruct (decide (a = b)) as [<-|Hab].
  - rewrite disconnect_untrack_lookup_eq, connection_track_lookup_eq.
    rewrite filter_app, filter_ne_all by done.
    rewrite filter_cons_False, filter_nil, app_nil_r by (by intros ?).
    unfold sessions_of in *. destruct (cu !! a) as [ids|] eqn:E; simpl.
    + apply Hinv in E. by rewrite decide_False.
    + done.
  - by rewrite disconnect_untrack_lookup_ne, connection_track_lookup_ne.
Qed.

(** C2. After every sequence of opens and closes, the reported count
    ([Object.keys(connectedUsers).length]) is the number of distinct
    addresses that have at least one open session.  When two different open
    sessions share an address the count is smaller than the number of open
    sessions, and a second session from an address that already has one
    leaves the count as it is: two sessions of one address are one party. *)
Theorem userCount_is_number_of_parties (ops : list RegOp) :
  userCount (run ops ∅) = size (parties (open_sessions ops))
  ∧ (∀ a s1 s2,
       s1 ≠ s2 →
       (a, s1) ∈ open_sessions ops → (a, s2) ∈ open_sessions ops →
       userCount (run ops ∅) < size (open_sessions ops))
  ∧ (∀ a s1 s2,
       userCount (connection_track a s2 (connection_track a s1 (run ops ∅)))
       = userCount (connection_track a s1 (run ops ∅)))
  ∧ (∀ a s1 s2, userCount (run [Open a s1; Open a s2] ∅) = 1).
Proof.
  assert (userCount (run ops ∅) = size (parties (open_sessions ops))) as Hc.
  { apply userCount_parties.
    - apply registry_inv_run, registry_inv_empty.
    - apply represents_run, represents_empty. }
  split; [done|]. split; [|split].
  - intros a s1 s2 Hne H1 H2. rewrite Hc. by eapply size_parties_lt.
  - intros a s1 s2. apply userCount_track_present.
    rewrite connection_track_lookup_eq. eauto.
  - intros a s1 s2. simpl. rewrite userCount_track_present.
    + unfold userCount, connection_track. rewrite lookup_empty.
      rewrite insert_insert_eq, map_size_insert_None by apply lookup_empty.
      by rewrite map_size_empty.
    + rewrite connection_track_lookup_eq. eauto.
Qed.

Lemma userCount_is_number_of_parties_witness :
  userCount (run [Open "10.0.0.7" "s1"; Open "10.0.0.7" "s2"] ∅)
  < size (open_sessions [Open "10.0.0.7" "s1"; Open "10.0.0.7" "s2"]).
Proof.
  apply (proj1 (proj2 (userCount_is_number_of_parties
           [Open "10.0.0.7" "s1"; Open "10.0.0.7" "s2"]))
           "10.0.0.7" "s1" "s2").
  - intros E. discriminate E.
  - unfold open_sessions. simpl.
    apply elem_of_union_r, elem_of_union_l, elem_of_singleton. reflexivity.
  - unfold open_sessions. simpl.
    apply elem_of_union_l, elem_of_singleton. reflexivity.
Defined.

(** C3. Every sequence of opens and closes preserves: an address is a key
    of [connectedUsers] if and only if its array of session ids is not
    empty.  The first open from an address creates its entry, and a close
    removes the entry exactly when no other session of the address is
    left, keeping the remaining ids otherwise. *)
Theorem entry_present_iff_sessions (ops : list RegOp) (cu : Registry) :
  (∀ a, is_Some (cu !! a) ↔ sessions_of cu a ≠ []) →
  (∀ a, is_Some (run ops cu !! a) ↔ sessions_of (run ops cu) a ≠ [])
  ∧ (∀ a s, run ops cu !! a = None →
            connection_track a s (run ops cu) !! a = Some [s])
  ∧ (∀ a s, is_Some (run ops cu !! a) →
            (disconnect_untrack a s (run ops cu) !! a = None
             ↔ ∀ x, x ∈ sessions_of (run ops cu) a → x = s)
            ∧ (disconnect_untrack a s (run ops cu) !! a ≠ None →
               disconnect_untrack a s (run ops cu) !! a
               = Some (filter (λ x, x ≠ s) (sessions_of (run ops cu) a)))).
Proof.
  intros Hinv. apply registry_inv_entry in Hinv.
  apply (registry_inv_run ops) in Hinv.
  split; [by apply registry_inv_entry|]. split.
  - intros a s E. rewrite connection_track_lookup_eq.
    unfold sessions_of. by rewrite E.
  - intros a s [ids E]. rewrite disconnect_untrack_lookup_eq.
    unfold sessions_of. rewrite E. simpl. split.
    + case_decide as Hnil.
      * split; [|done]. intros _ x Hx.
        destruct (decide (x = s)) as [|Hne]; [done|].
        exfalso. eapply filter_nil_not_elem_of; [exact Hnil| |exact Hx].
        exact Hne.
      * split; [done|]. intros Hall. exfalso. apply Hnil.
        destruct (filter (λ x, x ≠ s) ids) as [|y l] eqn:F; [done|].
        assert (y ∈ filter (λ x, x ≠ s) ids) as Hy by (rewrite F; left).
        apply list_elem_of_filter in Hy as [Hys Hy]. by apply Hall in Hy.
    + by case_decide.
Qed.

Lemma entry_present_iff_sessions_witness :
  is_Some (run [Open "10.0.0.7" "s1"; Open "10.0.0.7" "s2";
                Close "10.0.0.7" "s1"] ∅ !! "10.0.0.7")
  ↔ sessions_of (run [Open "10.0.0.7" "s1"; Open "10.0.0.7" "s2";
                      Close "10.0.0.7" "s1"] ∅) "10.0.0.7" ≠ [].
Proof.
  apply (entry_present_iff_sessions
           [Open "10.0.0.7" "s1"; Open "10.0.0.7" "s2"; Close "10.0.0.7" "s1"]
           ∅).
  intros a. unfold sessions_of. rewrite lookup_empty. simpl.
  split; [intros [x E]; discriminate E | intros E; contradiction E; reflexivity].
Defined.

(** C6. Closing is idempotent: closing the same session id twice leaves
    the same registry, and the same count, as closing it once; closing a
    session id that is not recorded for the address leaves the registry,
    and the count, unchanged. *)
Theorem close_idempotent (cu : Registry) (a s : string) :
  disconnect_untrack a s (disconnect_untrack a s cu) = disconnect_untrack a s cu
  ∧ userCount (disconnect_untrack a s (disconnect_untrack a s cu))
    = userCount (disconnect_untrack a s cu)
  ∧ (registry_inv cu → s ∉ sessions_of cu a →
     disconnect_untrack a s cu = cu
     ∧ userCount (disconnect_untrack a s cu) = userCount cu).
Proof.
  split; [apply disconnect_untrack_twice|].
  split; [by rewrite disconnect_untrack_twice|].
  intros Hinv Hs. by rewrite disconnect_untrack_absent.
Qed.

Lemma close_idempotent_witness :
  disconnect_untrack "10.0.0.7" "s9" (run [Open "10.0.0.7" "s1"] ∅)
  = run [Open "10.0.0.7" "s1"] ∅.
Proof.
  apply (proj2 (proj2 (close_idempotent (run [Open "10.0.0.7" "s1"] ∅)
                         "10.0.0.7" "s9"))).
  - apply registry_inv_run, registry_inv_empty.
  - unfold run. simpl. rewrite sessions_of_track_eq. unfold sessions_of.
    rewrite lookup_empty. simpl. intros H.
    apply list_elem_of_singleton in H. discriminate H.
Defined.

End RegistryClaims.

(** ** The legacy connection list *)

Section LegacyFacts.
Implicit Types (address_list : Legacy.AddressList) (address id : string).

(** The legacy handler reads [address_list[address].list] without a guard:
    on an address that has no entry it throws. *)
Lemma legacy_disconnect_without_entry address id address_list :
  address_list !! address = None →
  Legacy.disconnect_untrack address id address_list = Throw "TypeError".
Proof. intros E. unfold Legacy.disconnect_untrack. by rewrite E. Qed.

(** On an entry that keeps another socket, an id that is not listed is
    ignored. *)
Lemma legacy_disconnect_unlisted address id address_list socketid :
  address_list !! address = Some socketid →
  Legacy.indexOf id socketid = None →
  Legacy.keys_length socketid ≠ 0 →
  Legacy.disconnect_untrack address id address_list = Ok address_list.
Proof.
  intros E Hi Hk. unfold Legacy.disconnect_untrack. rewrite E, Hi.
  rewrite decide_False by done. by rewrite insert_id.
Qed.

(** The only socket of an address closes: the entry goes, and a second
    run of the legacy handler for the same socket throws. *)
Lemma legacy_disconnect_twice :
  Legacy.disconnect_untrack "10.0.0.7" "s1"
    (Legacy.connection_track "10.0.0.7" "s1" ∅) = Ok ∅
  ∧ Legacy.disconnect_untrack "10.0.0.7" "s1" ∅ = Throw "TypeError".
Proof.
  split; [|reflexivity].
  unfold Legacy.disconnect_untrack, Legacy.connection_track.
  rewrite lookup_empty, lookup_insert_eq. simpl.
  by rewrite insert_insert_eq, delete_insert_eq, delete_empty.
Qed.

End LegacyFacts.

(** ** Deliveries *)

Section Deliveries.
Import Js Store Server.
Implicit Types (st : State) (id to : string) (ev : Event)
               (effects : list Effect).

Lemma received_via_app to effects1 effects2 :
  received_via to (effects1 ++ effects2)
  = received_via to effects1 ++ received_via to effects2.
Proof. apply omap_app. Qed.

Lemma received_via_deliver to via to' ev effects :
  received_via to (Deliver via to' ev :: effects)
  = if decide (to' = to) then (via, ev) :: received_via to effects
    else received_via to effects.
Proof. unfold received_via. simpl. by destruct (decide (to' = to)). Qed.

Lemma received_via_ack to r effects :
  received_via to (Ack r :: effects) = received_via to effects.
Proof. reflexivity. Qed.

Lemma received_via_respond to status body effects :
  received_via to (Respond status body :: effects) = received_via to effects.
Proof. reflexivity. Qed.

(** One packet per listed socket: a socket listed once receives one. *)
Lemma received_via_fanout via ev to (l : list string) :
  NoDup l →
  received_via to (map (λ t, Deliver via t ev) l)
  = if decide (to ∈ l) then [(via, ev)] else [].
Proof.
  induction 1 as [|x l Hx Hnd IH].
  - by rewrite decide_False by apply not_elem_of_nil.
  - change (map (λ t, Deliver via t ev) (x :: l))
      with (Deliver via x ev :: map (λ t, Deliver via t ev) l).
    rewrite received_via_deliver, IH.
    destruct (decide (x = to)) as [->|Hne].
    + rewrite (decide_False (P := to ∈ l)) by done.
      by rewrite decide_True by left.
    + destruct (decide (to ∈ l)) as [Hin|Hin].
      * by rewrite decide_True by (by right).
      * rewrite decide_False; [done|].
        intros [->|?]%elem_of_cons; done.
Qed.

Lemma received_via_socket_emit st id ev to :
  received_via to (socket_emit st id ev)
  = if decide (id ∈ sockets st ∧ to = id) then [(SocketEmit, ev)] else [].
Proof.
  unfold socket_emit, received_via.
  destruct (decide (id ∈ sockets st)) as [Hin|Hin]; simpl.
  - destruct (decide (id = to)) as [->|Hne].
    + by rewrite decide_True.
    + rewrite decide_False; [done|]. by intros [_ ->].
  - rewrite decide_False; [done|]. by intros [? _].
Qed.

Lemma received_via_socket_broadcast_emit st id ev to :
  NoDup (sockets st) →
  received_via to (socket_broadcast_emit st id ev)
  = if decide (to ∈ sockets st ∧ to ≠ id)
    then [(SocketBroadcastEmit, ev)] else [].
Proof.
  intros Hnd. unfold socket_broadcast_emit.
  rewrite received_via_fanout by (by apply NoDup_filter).
  destruct (decide (to ∈ filter (λ x, x ≠ id) (sockets st))) as [Hin|Hin];
    rewrite list_elem_of_filter in Hin.
  - rewrite decide_True; [done|]. by destruct Hin.
  - rewrite decide_False; [done|]. intros [? ?]. by apply Hin.
Qed.

Lemma received_via_io_emit st ev to :
  NoDup (sockets st) →
  received_via to (io_emit st ev)
  = if decide (to ∈ sockets st) then [(IoEmit, ev)] else [].
Proof. intros Hnd. by apply received_via_fanout. Qed.

Lemma socket_emit_deliveries st id ev :
  Forall is_delivery (socket_emit st id ev).
Proof.
  unfold socket_emit. case_decide; repeat constructor.
Qed.

Lemma socket_broadcast_emit_deliveries st id ev :
  Forall is_delivery (socket_broadcast_emit st id ev).
Proof.
  unfold socket_broadcast_emit. apply Forall_forall. intros e He.
  apply list_elem_of_fmap in He as [t [-> _]]. exact I.
Qed.

Lemma io_emit_deliveries st ev : Forall is_delivery (io_emit st ev).
Proof.
  unfold io_emit. apply Forall_forall. intros e He.
  apply list_elem_of_fmap in He as [t [-> _]]. exact I.
Qed.

Lemma ack_not_delivery r effects : Forall is_delivery effects → Ack r ∉ effects.
Proof.
  intros Hall Hin. rewrite Forall_forall in Hall.
  by apply Hall in Hin.
Qed.

(** Every packet of [socket.emit] is for the sender and carries the event. *)
Lemma socket_emit_elem st id ev via to ev' :
  Deliver via to ev' ∈ socket_emit st id ev → to = id ∧ ev' = ev.
Proof.
  unfold socket_emit. case_decide.
  - intros [= -> -> ->]%list_elem_of_singleton. done.
  - by intros ?%not_elem_of_nil.
Qed.

Lemma socket_broadcast_emit_elem st id ev via to ev' :
  Deliver via to ev' ∈ socket_broadcast_emit st id ev → ev' = ev.
Proof.
  unfold socket_broadcast_emit.
  intros [t [[= -> -> ->] _]]%list_elem_of_fmap. done.
Qed.

End Deliveries.

(** ** The session commands *)

Section SessionCommands.
Import Js Store Server.
Context (schema : Schema).
Implicit Types (st : State) (id to : string) (ev : Event) (data : Value)
               (db : Store).

Lemma set_db_same st : set_db (db st) st = st.
Proof. by destruct st. Qed.

(** *** The store calls *)

Lemma Todo_save_docs init now db db' t :
  Todo_save schema init now db = Ok (db', t) →
  docs db' = docs db ++ [t]
  ∧ complete t = init_complete init ∧ priority t = init_priority init
  ∧ createdAt t = now.
Proof.
  unfold Todo_save. destruct (up db); simpl; [|done].
  destruct (validate schema init); simpl; [|done].
  by intros [= <- <-].
Qed.

Lemma Todo_findByIdAndUpdate_found v update now db db' t :
  Todo_findByIdAndUpdate schema v update now db = Ok (db', Some t) →
  ∃ oid t0, castObjectId schema v = Some oid
            ∧ findById oid (docs db) = Some t0.
Proof.
  unfold Todo_findByIdAndUpdate. destruct (up db); simpl; [|done].
  destruct (castObjectId schema v) as [oid|]; [|done].
  destruct (validateUpdate schema update); simpl; [|done].
  destruct (findById oid (docs db)) as [t0|] eqn:E; [|done].
  intros _. eauto.
Qed.

Lemma Todo_findByIdAndUpdate_missing v update now db db' :
  Todo_findByIdAndUpdate schema v update now db = Ok (db', None) → db' = db.
Proof.
  unfold Todo_findByIdAndUpdate. destruct (up db); simpl; [|done].
  destruct (castObjectId schema v) as [oid|]; [|done].
  destruct (validateUpdate schema update); simpl; [|done].
  destruct (findById oid (docs db)) as [t0|] eqn:E; [done|].
  by intros [= <-].
Qed.

Lemma Todo_findByIdAndDelete_found v db db' t :
  Todo_findByIdAndDelete schema v db = Ok (db', Some t) →
  ∃ oid t0, castObjectId schema v = Some oid
            ∧ findById oid (docs db) = Some t0.
Proof.
  unfold Todo_findByIdAndDelete. destruct (up db); simpl; [|done].
  destruct (castObjectId schema v) as [oid|]; [|done].
  destruct (findById oid (docs db)) as [t0|] eqn:E; [|done].
  intros _. eauto.
Qed.

Lemma Todo_findByIdAndDelete_missing v db db' :
  Todo_findByIdAndDelete schema v db = Ok (db', None) → db' = db.
Proof.
  unfold Todo_findByIdAndDelete. destruct (up db); simpl; [|done].
  destruct (castObjectId schema v) as [oid|]; [|done].
  destruct (findById oid (docs db)) as [t0|] eqn:E; [done|].
  by intros [= <-].
Qed.

(** *** The branches of the handlers *)

(** [add]: the store acknowledged the new record and the event goes to the
    sender and to the others, or the sender gets an error. *)
Lemma on_add_cases id data now st :
  (∃ init db' t,
      add_todo_init data = Ok init
      ∧ Todo_save schema init now (db st) = Ok (db', t)
      ∧ on_add schema id data now st
        = (set_db db' st,
           Ack (Saved t)
           :: socket_emit (set_db db' st) id (EvAdded t)
           ++ socket_broadcast_emit (set_db db' st) id (EvAdded t)))
  ∨ on_add schema id data now st
    = (st, socket_emit st id (EvError "Failed to create todo")).
Proof.
  unfold on_add. destruct (add_todo_init data) as [init|e] eqn:Ei; simpl;
    [|by right].
  destruct (Todo_save schema init now (db st)) as [[db' t]|e] eqn:Es; simpl;
    [|by right].
  left. by exists init, db', t.
Qed.

(** [update]: acknowledged with the updated record, acknowledged with no
    record, or failed. *)
Lemma on_update_cases id data now st :
  (∃ v updates db' t,
      get data "id" = Ok v
      ∧ Todo_findByIdAndUpdate schema v (Obj [("$set", updates)]) now (db st)
        = Ok (db', Some t)
      ∧ on_update schema id data now st
        = (set_db db' st,
           Ack (Updated (Some t))
           :: socket_emit (set_db db' st) id (EvUpdated t)
           ++ socket_broadcast_emit (set_db db' st) id (EvUpdated t)))
  ∨ on_update schema id data now st
    = (st, Ack (Updated None) :: socket_emit st id (EvError "Todo not found"))
  ∨ on_update schema id data now st
    = (st, socket_emit st id (EvError "Failed to update todo")).
Proof.
  unfold on_update. destruct (get data "id") as [v|e] eqn:Ev; simpl;
    [|by right; right].
  destruct (get data "updates") as [updates|e] eqn:Eu; simpl;
    [|by right; right].
  destruct (Todo_findByIdAndUpdate schema v (Obj [("$set", updates)]) now
              (db st)) as [[db' [t|]]|e] eqn:Ef; simpl; [| |by right; right].
  - left. by exists v, updates, db', t.
  - right; left. apply Todo_findByIdAndUpdate_missing in Ef as ->.
    by rewrite set_db_same.
Qed.

(** [delete]: likewise. *)
Lemma on_delete_cases id data st :
  (∃ v db' t,
      get data "id" = Ok v
      ∧ Todo_findByIdAndDelete schema v (db st) = Ok (db', Some t)
      ∧ on_delete schema id data st
        = (set_db db' st,
           Ack (Removed (Some t))
           :: socket_emit (set_db db' st) id (EvDeleted v)
           ++ socket_broadcast_emit (set_db db' st) id (EvDeleted v)))
  ∨ on_delete schema id data st
    = (st, Ack (Removed None) :: socket_emit st id (EvError "Todo not found"))
  ∨ on_delete schema id data st
    = (st, socket_emit st id (EvError "Failed to delete todo")).
Proof.
  unfold on_delete. destruct (get data "id") as [v|e] eqn:Ev; simpl;
    [|by right; right].
  destruct (Todo_findByIdAndDelete schema v (db st)) as [[db' [t|]]|e] eqn:Ef;
    simpl; [| |by right; right].
  - left. by exists v, db', t.
  - right; left. apply Todo_findByIdAndDelete_missing in Ef as ->.
    by rewrite set_db_same.
Qed.

(** What the sender and another open socket receive from a reply followed
    by [socket.emit] and [socket.broadcast.emit] of one event. *)
Lemma received_via_ack_emit_broadcast st id ev r :
  NoDup (sockets st) → id ∈ sockets st →
  received_via id (Ack r :: socket_emit st id ev
                         ++ socket_broadcast_emit st id ev)
  = [(SocketEmit, ev)]
  ∧ ∀ other, other ∈ sockets st → other ≠ id →
      received_via other (Ack r :: socket_emit st id ev
                                ++ socket_broadcast_emit st id ev)
      = [(SocketBroadcastEmit, ev)].
Proof.
  intros Hnd Hid. split; [|intros other Ho Hne];
    rewrite received_via_ack, received_via_app, received_via_socket_emit,
      received_via_socket_broadcast_emit by done.
  - rewrite decide_True by done. rewrite decide_False; [done|].
    by intros [_ ?].
  - rewrite decide_False by (by intros [_ ?]). by rewrite decide_True.
Qed.

Lemma ack_in_emit_broadcast st id ev r r' :
  Ack r ∈ Ack r' :: socket_emit st id ev ++ socket_broadcast_emit st id ev →
  r = r'.
Proof.
  intros [[= ->]|Hin]%elem_of_cons; [done|]. exfalso.
  eapply ack_not_delivery; [|exact Hin].
  apply Forall_app; split;
    auto using socket_emit_deliveries, socket_broadcast_emit_deliveries.
Qed.

Lemma ack_in_ack_emit st id ev r r' :
  Ack r ∈ Ack r' :: socket_emit st id ev → r = r'.
Proof.
  intros [[= ->]|Hin]%elem_of_cons; [done|]. exfalso.
  eapply ack_not_delivery; [|exact Hin]. apply socket_emit_deliveries.
Qed.

End SessionCommands.

Section SessionClaims.
Import Js Store Server.
Implicit Types (st : State) (id to : string) (ev : Event) (data : Value).

(** C4. When a mutation (add, update, delete) issued by an open session
    succeeds, that is, when the store call of the command resolves with
    the saved, updated or removed record, the originating session receives
    exactly one event, the acknowledgment sent with [socket.emit], and no
    broadcast copy of it, and every other open session receives exactly
    one event, the same one, sent with [socket.broadcast.emit]; the state
    is the old one with the store the write left. *)
Theorem origin_gets_one_acknowledgment (schema : Schema) id now st :
  NoDup (sockets st) → id ∈ sockets st →
  (∀ data title description priority db' t,
     get data "title" = Ok title →
     get data "description" = Ok description →
     get data "priority" = Ok priority →
     Todo_save schema
       {| init_title := title;
          init_description := description;
          init_complete := Bool false;
          init_priority := or priority (Str "medium");
          init_dueDate := Undefined |} now (db st) = Ok (db', t) →
     Session.acknowledged id st db' (EvAdded t)
       (handle schema id (CmdAdd data) now st))
  ∧ (∀ data v updates db' t,
       get data "id" = Ok v →
       get data "updates" = Ok updates →
       Todo_findByIdAndUpdate schema v (Obj [("$set", updates)]) now (db st)
       = Ok (db', Some t) →
       Session.acknowledged id st db' (EvUpdated t)
         (handle schema id (CmdUpdate data) now st))
  ∧ (∀ data v db' t,
       get data "id" = Ok v →
       Todo_findByIdAndDelete schema v (db st) = Ok (db', Some t) →
       Session.acknowledged id st db' (EvDeleted v)
         (handle schema id (CmdDelete data) now st)).
Proof.
  intros Hnd Hid.
  assert (∀ db' ev r,
            Session.acknowledged id st db' ev
              (set_db db' st,
               Ack r :: socket_emit (set_db db' st) id ev
                     ++ socket_broadcast_emit (set_db db' st) id ev)) as Hok.
  { intros db' ev r. split; [done|].
    by apply (received_via_ack_emit_broadcast (set_db db' st)). }
  split; [|split].
  - intros data title description priority db' t Ht Hd Hp Hsave.
    cbn [handle]. unfold on_add, add_todo_init. rewrite Ht, Hd, Hp. simpl.
    rewrite Hsave. simpl. apply Hok.
  - intros data v updates db' t Hv Hu Hupd.
    cbn [handle]. unfold on_update. rewrite Hv, Hu. simpl.
    rewrite Hupd. simpl. apply Hok.
  - intros data v db' t Hv Hdel.
    cbn [handle]. unfold on_delete. rewrite Hv. simpl.
    rewrite Hdel. simpl. apply Hok.
Qed.

Lemma origin_gets_one_acknowledgment_witness :
  Session.acknowledged "A" Demo.two_open
    (Demo.store_of [Demo.first_todo "xyz" 5] 1)
    (EvAdded (Demo.first_todo "xyz" 5))
    (handle Demo.schema "A" (CmdAdd (Obj [("title", Str "xyz")])) 5
            Demo.two_open)
  ∧ Session.acknowledged "A" Demo.with_record
      (Demo.store_of [Demo.completed_todo] 1)
      (EvUpdated Demo.completed_todo)
      (handle Demo.schema "A"
         (CmdUpdate (Obj [("id", Num 0);
                          ("updates", Obj [("complete", Bool true)])]))
         7 Demo.with_record)
  ∧ Session.acknowledged "B" Demo.with_record
      (Demo.store_of [] 1)
      (EvDeleted (Num 0))
      (handle Demo.schema "B" (CmdDelete (Obj [("id", Num 0)])) 7
              Demo.with_record).
Proof.
  split; [|split].
  - apply (proj1 (origin_gets_one_acknowledgment Demo.schema "A" 5
                    Demo.two_open
                    ltac:(apply (bool_decide_unpack _); vm_compute; exact I)
                    ltac:(apply (bool_decide_unpack _); vm_compute; exact I))
             (Obj [("title", Str "xyz")]) (Str "xyz") Undefined Undefined);
      reflexivity.
  - apply (proj1 (proj2 (origin_gets_one_acknowledgment Demo.schema "A" 7
                           Demo.with_record
                           ltac:(apply (bool_decide_unpack _); vm_compute;
                                 exact I)
                           ltac:(apply (bool_decide_unpack _); vm_compute;
                                 exact I)))
             (Obj [("id", Num 0); ("updates", Obj [("complete", Bool true)])])
             (Num 0) (Obj [("complete", Bool true)]));
      reflexivity.
  - apply (proj2 (proj2 (origin_gets_one_acknowledgment Demo.schema "B" 7
                           Demo.with_record
                           ltac:(apply (bool_decide_unpack _); vm_compute;
                                 exact I)
                           ltac:(apply (bool_decide_unpack _); vm_compute;
                                 exact I)))
             (Obj [("id", Num 0)]) (Num 0) _ (Demo.first_todo "xyz" 5));
      reflexivity.
Defined.

(** The deliveries of the three acknowledgments above, socket by socket:
    the sender once through [socket.emit], the other socket once through
    [socket.broadcast.emit]. *)
Lemma acknowledgments_delivered :
  received_via "B"
    (handle Demo.schema "A"
       (CmdUpdate (Obj [("id", Num 0);
                        ("updates", Obj [("complete", Bool true)])]))
       7 Demo.with_record).2
  = [(SocketBroadcastEmit, EvUpdated Demo.completed_todo)]
  ∧ received_via "A"
      (handle Demo.schema "B" (CmdDelete (Obj [("id", Num 0)])) 7
              Demo.with_record).2
    = [(SocketBroadcastEmit, EvDeleted (Num 0))]
  ∧ received_via "B"
      (handle Demo.schema "B" (CmdDelete (Obj [("id", Num 0)])) 7
              Demo.with_record).2
    = [(SocketEmit, EvDeleted (Num 0))].
Proof. repeat split. Qed.

(** C5. An update or a delete whose id names no stored record sends the
    originating session exactly one error event; every packet the handler
    sends is that error to that session, so nobody receives an updated or
    deleted event; and the server state, the record store included, is
    unchanged. *)
Theorem missing_id_reports_error_only (schema : Schema) id data now st cmd :
  id ∈ sockets st →
  names_no_record schema data (db st) →
  cmd = CmdUpdate data ∨ cmd = CmdDelete data →
  ∃ message,
    received id (handle schema id cmd now st).2 = [EvError message]
    ∧ (∀ via to ev, Deliver via to ev ∈ (handle schema id cmd now st).2 →
                    to = id ∧ ev = EvError message)
    ∧ (handle schema id cmd now st).1 = st.
Proof.
  intros Hid Hno Hcmd.
  assert (∀ message, received id (socket_emit st id (EvError message))
                     = [EvError message]) as Hrecv.
  { intros m. unfold received. rewrite received_via_socket_emit.
    by rewrite decide_True. }
  destruct Hcmd as [-> | ->]; simpl.
  - destruct (on_update_cases schema id data now st)
      as [(v & updates & db' & t & Hv & Hf & _)|[-> | ->]]; simpl.
    + apply Todo_findByIdAndUpdate_found in Hf as (oid & t0 & Hc & Hfind).
      by rewrite (Hno v oid Hv Hc) in Hfind.
    + exists "Todo not found". split; [apply Hrecv|]. split; [|done].
      intros via to ev [[=]|Hin]%elem_of_cons.
      by apply socket_emit_elem in Hin.
    + exists "Failed to update todo". split; [apply Hrecv|]. split; [|done].
      intros via to ev Hin. by apply socket_emit_elem in Hin.
  - destruct (on_delete_cases schema id data st)
      as [(v & db' & t & Hv & Hf & _)|[-> | ->]]; simpl.
    + apply Todo_findByIdAndDelete_found in Hf as (oid & t0 & Hc & Hfind).
      by rewrite (Hno v oid Hv Hc) in Hfind.
    + exists "Todo not found". split; [apply Hrecv|]. split; [|done].
      intros via to ev [[=]|Hin]%elem_of_cons.
      by apply socket_emit_elem in Hin.
    + exists "Failed to delete todo". split; [apply Hrecv|]. split; [|done].
      intros via to ev Hin. by apply socket_emit_elem in Hin.
Qed.

Lemma missing_id_reports_error_only_witness :
  ∃ message,
    received "A" (handle Demo.schema "A"
                    (CmdUpdate (Obj [("id", Num 41);
                                     ("updates", Obj [("complete", Bool true)])]))
                    7 Demo.with_record).2
    = [EvError message]
    ∧ (∀ via to ev,
         Deliver via to ev
         ∈ (handle Demo.schema "A"
              (CmdUpdate (Obj [("id", Num 41);
                               ("updates", Obj [("complete", Bool true)])]))
              7 Demo.with_record).2 →
         to = "A" ∧ ev = EvError message)
    ∧ (handle Demo.schema "A"
         (CmdUpdate (Obj [("id", Num 41);
                          ("updates", Obj [("complete", Bool true)])]))
         7 Demo.with_record).1 = Demo.with_record.
Proof.
  apply (missing_id_reports_error_only Demo.schema "A"
           (Obj [("id", Num 41); ("updates", Obj [("complete", Bool true)])])
           7 Demo.with_record).
  - apply (bool_decide_unpack _). vm_compute. exact I.
  - intros v oid Hv Hc. injection Hv as <-. injection Hc as <-. reflexivity.
  - left. reflexivity.
Defined.

(** C8. When session A adds a record while A and B are open and the store
    acknowledges the save, A and B each receive exactly one [added] event
    and both carry the same record, the one the store returned, which is
    in the store after the write.  The handler's effects start with the
    acknowledgment and everything after it is a delivery; when the save is
    not acknowledged nobody receives an [added] event. *)
Theorem created_record_identical (schema : Schema) A B data now st :
  NoDup (sockets st) → A ∈ sockets st → B ∈ sockets st → A ≠ B →
  (∀ t, Ack (Saved t) ∈ (on_add schema A data now st).2 →
        received A (on_add schema A data now st).2 = [EvAdded t]
        ∧ received B (on_add schema A data now st).2 = [EvAdded t]
        ∧ t ∈ docs (db (on_add schema A data now st).1)
        ∧ ∃ deliveries,
            (on_add schema A data now st).2 = Ack (Saved t) :: deliveries
            ∧ Forall is_delivery deliveries)
  ∧ ((∀ t, Ack (Saved t) ∉ (on_add schema A data now st).2) →
     ∀ via to t, Deliver via to (EvAdded t) ∉ (on_add schema A data now st).2).
Proof.
  intros Hnd HA HB Hne.
  destruct (on_add_cases schema A data now st)
    as [(init & db' & t & _ & Hsave & E)|E]; rewrite E; simpl.
  - split.
    + intros t' Hack. apply ack_in_emit_broadcast in Hack as [= ->].
      destruct (received_via_ack_emit_broadcast (set_db db' st) A (EvAdded t)
                  (Saved t) Hnd HA) as [HrA HrB].
      unfold received. rewrite HrA, (HrB B HB) by done.
      split; [done|]. split; [done|]. split.
      * apply Todo_save_docs in Hsave as [-> _].
        apply elem_of_app. right. left.
      * eexists. split; [done|]. apply Forall_app. split;
          auto using socket_emit_deliveries, socket_broadcast_emit_deliveries.
    + intros Hno. exfalso. apply (Hno t). left.
  - split.
    + intros t Hack. exfalso. eapply ack_not_delivery; [|exact Hack].
      apply socket_emit_deliveries.
    + intros _ via to t Hin. by apply socket_emit_elem in Hin as [_ ?].
Qed.

Lemma created_record_identical_witness :
  received "A" (on_add Demo.schema "A" (Obj [("title", Str "xyz")]) 5
                       Demo.two_open).2
  = [EvAdded (Demo.first_todo "xyz" 5)]
  ∧ received "B" (on_add Demo.schema "A" (Obj [("title", Str "xyz")]) 5
                         Demo.two_open).2
    = [EvAdded (Demo.first_todo "xyz" 5)].
Proof.
  destruct (proj1 (created_record_identical Demo.schema "A" "B"
                     (Obj [("title", Str "xyz")]) 5 Demo.two_open
                     ltac:(apply (bool_decide_unpack _); vm_compute; exact I)
                     ltac:(apply (bool_decide_unpack _); vm_compute; exact I)
                     ltac:(apply (bool_decide_unpack _); vm_compute; exact I)
                     ltac:(intros E; discriminate E))
                  (Demo.first_todo "xyz" 5)
                  ltac:(vm_compute; apply list_elem_of_here))
    as (HA & HB & _).
  split; [exact HA | exact HB].
Defined.

End SessionClaims.

Section ConnectionClaims.
Import Registry Js Store Server.
Implicit Types (st : State) (id address : string).

Lemma connect_then_disconnect address id st :
  registry_inv (connectedUsers st) →
  id ∉ sockets st → id ∉ sessions_of (connectedUsers st) address →
  disconnect address id (connect address id st).1
  = (st, io_emit st (EvCount (userCount (connectedUsers st)))).
Proof.
  intros Hinv Hfresh Hnew.
  unfold disconnect, connect, on_disconnect, on_connection, io_remove,
    io_accept, set_connectedUsers. cbn [fst connectedUsers sockets db].
  rewrite untrack_track by done.
  rewrite filter_app, filter_ne_all by done.
  rewrite filter_cons_False, filter_nil, app_nil_r by (by intros ?).
  by destruct st.
Qed.

(** Socket ids stay unique and the registry keeps its invariant when a
    client connects with a new id, when a socket disconnects, and when a
    command is handled (commands touch neither). *)
Lemma connect_keeps_invariants address id st :
  NoDup (sockets st) → registry_inv (connectedUsers st) → id ∉ sockets st →
  NoDup (sockets (connect address id st).1)
  ∧ registry_inv (connectedUsers (connect address id st).1)
  ∧ id ∈ sockets (connect address id st).1.
Proof.
  intros Hnd Hinv Hfresh. unfold connect, on_connection, io_accept,
    set_connectedUsers. cbn [fst connectedUsers sockets].
  split; [|split].
  - apply NoDup_app. split; [done|]. split; [|apply NoDup_singleton].
    intros x Hx ->%list_elem_of_singleton. by apply Hfresh.
  - by apply registry_inv_track.
  - apply elem_of_app. right. left.
Qed.

Lemma disconnect_keeps_invariants address id st :
  NoDup (sockets st) → registry_inv (connectedUsers st) →
  NoDup (sockets (disconnect address id st).1)
  ∧ registry_inv (connectedUsers (disconnect address id st).1)
  ∧ id ∉ sockets (disconnect address id st).1.
Proof.
  intros Hnd Hinv. unfold disconnect, on_disconnect, io_remove,
    set_connectedUsers. cbn [fst connectedUsers sockets].
  split; [|split].
  - by apply NoDup_filter.
  - by apply registry_inv_untrack.
  - rewrite list_elem_of_filter. by intros [? _].
Qed.

Lemma handle_keeps_connections (schema : Schema) id cmd now st :
  sockets (handle schema id cmd now st).1 = sockets st
  ∧ connectedUsers (handle schema id cmd now st).1 = connectedUsers st.
Proof.
  destruct cmd as [|data|data|data]; cbn [handle].
  - unfold on_all. by destruct (Todo_find_sort no_filter (db st)).
  - by destruct (on_add_cases schema id data now st)
      as [(init & db' & t & _ & _ & ->)| ->].
  - by destruct (on_update_cases schema id data now st)
      as [(v & updates & db' & t & _ & _ & ->)|[-> | ->]].
  - by destruct (on_delete_cases schema id data st)
      as [(v & db' & t & _ & _ & ->)|[-> | ->]].
Qed.

(** C7. Opening a new session and then closing it restores the registry,
    hence the count of distinct parties, to what it was before the open,
    and the [count] event that the close sends to every remaining session
    carries that restored count. *)
Theorem open_close_restores_count address id st :
  registry_inv (connectedUsers st) → NoDup (sockets st) →
  id ∉ sockets st → id ∉ sessions_of (connectedUsers st) address →
  userCount (connectedUsers (disconnect address id (connect address id st).1).1)
  = userCount (connectedUsers st)
  ∧ disconnect_untrack address id
      (connection_track address id (connectedUsers st))
    = connectedUsers st
  ∧ sockets (disconnect address id (connect address id st).1).1 = sockets st
  ∧ ∀ other,
      other ∈ sockets (disconnect address id (connect address id st).1).1 →
      received other (disconnect address id (connect address id st).1).2
      = [EvCount (userCount (connectedUsers st))].
Proof.
  intros Hinv Hnd Hfresh Hnew.
  rewrite connect_then_disconnect by done. cbn [fst snd].
  split; [done|]. split; [by apply untrack_track|]. split; [done|].
  intros other Hin. unfold received.
  rewrite received_via_io_emit by done. by rewrite decide_True.
Qed.

Lemma open_close_restores_count_witness :
  userCount (connectedUsers
               (disconnect "10.0.0.7" "Z"
                  (connect "10.0.0.7" "Z" Demo.two_open).1).1)
  = userCount (connectedUsers Demo.two_open)
  ∧ ∀ other,
      other ∈ sockets (disconnect "10.0.0.7" "Z"
                         (connect "10.0.0.7" "Z" Demo.two_open).1).1 →
      received other (disconnect "10.0.0.7" "Z"
                        (connect "10.0.0.7" "Z" Demo.two_open).1).2
      = [EvCount (userCount (connectedUsers Demo.two_open))].
Proof.
  destruct (open_close_restores_count "10.0.0.7" "Z" Demo.two_open)
    as (Hcount & _ & _ & Hrecv).
  - intros a ids. unfold Demo.two_open. cbn [connectedUsers].
    intros [_ <-]%lookup_singleton_Some. discriminate.
  - apply (bool_decide_unpack _). vm_compute. exact I.
  - apply (bool_decide_unpack _). vm_compute. exact I.
  - unfold Demo.two_open, sessions_of. cbn [connectedUsers].
    rewrite lookup_singleton_eq. simpl.
    apply (bool_decide_unpack _). vm_compute. exact I.
  - split; [exact Hcount | exact Hrecv].
Defined.

End ConnectionClaims.

(** ** Listing and creating on the two surfaces *)

Section ListClaims.
Import Js Store Server Http.
Implicit Types (st : State) (t : Todo) (l : list Todo).

Lemma insert_desc_perm t l : insert_desc t l ≡ₚ t :: l.
Proof.
  induction l as [|x rest IH]; simpl; [done|].
  destruct (createdAt x <? createdAt t); [done|].
  rewrite IH. apply perm_swap.
Qed.

Lemma sort_createdAt_desc_perm l : sort_createdAt_desc l ≡ₚ l.
Proof.
  induction l as [|t rest IH]; simpl; [done|].
  by rewrite insert_desc_perm, IH.
Qed.

Lemma insert_desc_sorted t l :
  StronglySorted newer_first l → StronglySorted newer_first (insert_desc t l).
Proof.
  induction l as [|x rest IH]; intros Hs; simpl.
  - by repeat constructor.
  - apply StronglySorted_inv in Hs as [Hrest Hall].
    destruct (createdAt x <? createdAt t) eqn:E.
    + apply Nat.ltb_lt in E. constructor; [by constructor|].
      constructor; [unfold newer_first; lia|].
      eapply Forall_impl; [exact Hall|].
      intros y Hy. unfold newer_first in *. lia.
    + apply Nat.ltb_ge in E. constructor; [by apply IH|].
      rewrite insert_desc_perm. constructor; [exact E | exact Hall].
Qed.

Lemma sort_createdAt_desc_sorted l :
  StronglySorted newer_first (sort_createdAt_desc l).
Proof.
  induction l as [|t rest IH]; simpl; [constructor|].
  by apply insert_desc_sorted.
Qed.

Lemma filter_no_filter l : List.filter (matches no_filter) l = l.
Proof.
  induction l as [|t rest IH]; simpl; [done|]. by rewrite IH.
Qed.

(** C9. With the store up, the session command [all] and [GET /todos]
    without filters answer with the same list: all the stored records,
    most recently created first. *)
Theorem list_surfaces_newest_first (id : string) (req : Request) st :
  up (db st) = true → id ∈ sockets st →
  get (query req) "complete" = Ok Undefined →
  get (query req) "priority" = Ok Undefined →
  ∃ todos,
    received id (on_all id st).2 = [EvAll todos]
    ∧ (get_todos req st).2
      = [Ack (Found todos); Respond 200 (BodyList (length todos) todos)]
    ∧ todos ≡ₚ docs (db st)
    ∧ StronglySorted newer_first todos.
Proof.
  intros Hup Hid Hc Hp. exists (sort_createdAt_desc (docs (db st))).
  split; [|split; [|split]].
  - unfold on_all, Todo_find_sort. rewrite Hup, filter_no_filter. simpl.
    unfold received.
    rewrite received_via_ack, received_via_socket_emit.
    by rewrite decide_True.
  - unfold get_todos, Todo_find_sort. rewrite Hc, Hp, Hup. simpl.
    fold no_filter. by rewrite filter_no_filter.
  - apply sort_createdAt_desc_perm.
  - apply sort_createdAt_desc_sorted.
Qed.

Lemma list_surfaces_newest_first_witness :
  ∃ todos,
    received "A"
      (on_all "A" (on_add Demo.schema "B" (Obj [("title", Str "later")]) 8
                     (on_add Demo.schema "A" (Obj [("title", Str "first")]) 5
                        Demo.two_open).1).1).2
    = [EvAll todos]
    ∧ (get_todos {| params := Obj []; query := Obj []; body := Obj [] |}
         (on_add Demo.schema "B" (Obj [("title", Str "later")]) 8
            (on_add Demo.schema "A" (Obj [("title", Str "first")]) 5
               Demo.two_open).1).1).2
      = [Ack (Found todos); Respond 200 (BodyList (length todos) todos)]
    ∧ todos ≡ₚ docs (db (on_add Demo.schema "B" (Obj [("title", Str "later")]) 8
                          (on_add Demo.schema "A" (Obj [("title", Str "first")])
                             5 Demo.two_open).1).1)
    ∧ StronglySorted newer_first todos.
Proof.
  apply (list_surfaces_newest_first "A"
           {| params := Obj []; query := Obj []; body := Obj [] |}).
  - reflexivity.
  - apply (bool_decide_unpack _). vm_compute. exact I.
  - reflexivity.
  - reflexivity.
Defined.

Lemma on_add_saved (schema : Schema) id data now st t :
  Ack (Saved t) ∈ (on_add schema id data now st).2 →
  ∃ init db', add_todo_init data = Ok init
              ∧ Todo_save schema init now (db st) = Ok (db', t).
Proof.
  destruct (on_add_cases schema id data now st)
    as [(init & db' & t' & Hi & Hs & E)|E]; rewrite E; cbn [snd].
  - intros [= ->]%ack_in_emit_broadcast. eauto.
  - intros Hin. exfalso. eapply ack_not_delivery; [|exact Hin].
    apply socket_emit_deliveries.
Qed.

Lemma post_todo_handler_saved (schema : Schema) req now st t :
  Ack (Saved t) ∈ (post_todo_handler schema req now st).2 →
  ∃ init db', post_todo_init (body req) = Ok init
              ∧ Todo_save schema init now (db st) = Ok (db', t).
Proof.
  unfold post_todo_handler.
  destruct (post_todo_init (body req)) as [init|e] eqn:Ei; simpl.
  - destruct (Todo_save schema init now (db st)) as [[db' t']|e] eqn:Es;
      simpl.
    + intros [[= ->]|[[=]|[]%not_elem_of_nil]%elem_of_cons]%elem_of_cons.
      eauto.
    + intros [[=]|[]%not_elem_of_nil]%elem_of_cons.
  - intros [[=]|[]%not_elem_of_nil]%elem_of_cons.
Qed.




End ListClaims.

(** ** The HTTP surface and the sessions *)

Section HttpClaims.
Import Js Store Server Http.
Implicit Types (st : State) (req : Request).

Ltac step_handler :=
  match goal with
  | |- context [mbind _ ?r] => destruct r as [?|?]; simpl
  | |- context [match ?x with Some _ => _ | None => _ end] =>
      destruct x; simpl
  | |- context [let '(_, _) := ?p in _] => destruct p; simpl
  end.

Ltac silent_handler :=
  unfold silent, try_catch; simpl; repeat step_handler;
  repeat constructor; by intros [].

Lemma post_todo_handler_silent (schema : Schema) req now st :
  silent (post_todo_handler schema req now st).2.
Proof. unfold post_todo_handler, post_todo_init. silent_handler. Qed.

Lemma put_todo_handler_silent (schema : Schema) req now st :
  silent (put_todo_handler schema req now st).2.
Proof. unfold put_todo_handler. silent_handler. Qed.

Lemma patch_todo_handler_silent (schema : Schema) req now st :
  silent (patch_todo_handler schema req now st).2.
Proof. unfold patch_todo_handler. silent_handler. Qed.

Lemma delete_todo_handler_silent (schema : Schema) req now st :
  silent (delete_todo_handler schema req now st).2.
Proof. unfold delete_todo_handler. silent_handler. Qed.

Lemma validated_silent validationResult route handler req now st :
  (∀ req', silent (handler req' now st).2) →
  silent (validated validationResult route handler req now st).2.
Proof.
  intros Hh. unfold validated.
  destruct (validationResult route req) as [req' [|e errors]]; [apply Hh|].
  repeat constructor. by intros [].
Qed.

(** No mutating route of routes/todos.js sends anything to any socket:
    creating, replacing, patching and deleting over HTTP reach no session. *)
Lemma http_mutations_silent (schema : Schema) validationResult req now st :
  silent (post_todo schema validationResult req now st).2
  ∧ silent (put_todo schema validationResult req now st).2
  ∧ silent (patch_todo schema validationResult req now st).2
  ∧ silent (delete_todo schema validationResult req now st).2.
Proof.
  repeat split; apply validated_silent; intros req';
    auto using post_todo_handler_silent, put_todo_handler_silent,
      patch_todo_handler_silent, delete_todo_handler_silent.
Qed.

Lemma silent_received to effects : silent effects → received to effects = [].
Proof.
  unfold silent, received. induction 1 as [|e l He _ IH]; [done|].
  destruct e as [r|via to' ev|status body]; [exact IH| |exact IH].
  by destruct He.
Qed.

(** C1. [POST /todos] with a valid title while the session C is open: the
    record is saved and returned with status 201, and no event at all is
    delivered, so C receives no [added] event for the record in the
    response. *)
Theorem post_reaches_no_session :
  (post_todo Demo.schema Demo.validationResult
     {| params := Obj []; query := Obj [];
        body := Obj [("title", Str "abc")] |} 9 Demo.one_open).2
  = [Ack (Saved (Demo.first_todo "abc" 9));
     Respond 201 (BodyTodo "Todo created successfully"
                           (Demo.first_todo "abc" 9))]
  ∧ received "C"
      (post_todo Demo.schema Demo.validationResult
         {| params := Obj []; query := Obj [];
            body := Obj [("title", Str "abc")] |} 9 Demo.one_open).2
    = []
  ∧ "C" ∈ sockets Demo.one_open.
Proof.
  split; [reflexivity|]. split; [reflexivity|]. left.
Qed.

End HttpClaims.

(** * Further properties of the code *)

(** ** Connections, disconnections and commands of the current server *)

Section ConnectionEvents.
Import Registry Js Store Server.
Implicit Types (st : State) (id address : string).

Lemma userCount_track_absent address id (cu : Registry) :
  cu !! address = None →
  userCount (connection_track address id cu) = S (userCount cu).
Proof.
  intros E. unfold userCount, connection_track. rewrite E.
  rewrite insert_insert_eq. by apply map_size_insert_None.
Qed.

(** X1. When a client connects with a new socket id, the new socket
    receives exactly one [count] event, sent with [socket.emit], and every
    socket that was already open receives exactly one, sent with
    [socket.broadcast.emit]; all carry the number of keys of
    [connectedUsers] after the new socket is recorded, which is the old
    count when the address already had a socket and one more otherwise.
    The record store is untouched. *)
Theorem connect_counts_everyone address id st :
  NoDup (sockets st) → id ∉ sockets st →
  received_via id (connect address id st).2
  = [(SocketEmit,
      EvCount (userCount (connection_track address id (connectedUsers st))))]
  ∧ (∀ other, other ∈ sockets st →
       received_via other (connect address id st).2
       = [(SocketBroadcastEmit,
           EvCount (userCount
                      (connection_track address id (connectedUsers st))))])
  ∧ userCount (connection_track address id (connectedUsers st))
    = (if decide (is_Some (connectedUsers st !! address))
       then userCount (connectedUsers st)
       else S (userCount (connectedUsers st)))
  ∧ db (connect address id st).1 = db st.
Proof.
  intros Hnd Hfresh.
  assert (NoDup (sockets st ++ [id])) as Hnd'.
  { apply NoDup_app. split; [done|]. split; [|apply NoDup_singleton].
    intros x Hx ->%list_elem_of_singleton. by apply Hfresh. }
  unfold connect, on_connection, io_accept, set_connectedUsers.
  cbn [fst snd connectedUsers sockets db].
  split; [|split; [|split; [|done]]].
  - rewrite received_via_app, received_via_socket_emit,
      received_via_socket_broadcast_emit by done.
    cbn [sockets]. rewrite decide_True by (split; [|done]; set_solver).
    rewrite decide_False; [done|]. by intros [_ ?].
  - intros other Ho.
    rewrite received_via_app, received_via_socket_emit,
      received_via_socket_broadcast_emit by done.
    cbn [sockets]. rewrite decide_False.
    + rewrite decide_True; [done|]. split; [set_solver|].
      intros ->. by apply Hfresh.
    + intros [_ ->]. by apply Hfresh.
  - case_decide as Hp.
    + by apply userCount_track_present.
    + apply userCount_track_absent. by apply eq_None_not_Some.
Qed.

Lemma connect_counts_everyone_witness :
  received_via "Z" (connect "10.0.0.8" "Z" Demo.two_open).2
  = [(SocketEmit,
      EvCount (userCount (connection_track "10.0.0.8" "Z"
                            (connectedUsers Demo.two_open))))].
Proof.
  apply (connect_counts_everyone "10.0.0.8" "Z" Demo.two_open).
  - apply (bool_decide_unpack _). vm_compute. exact I.
  - apply (bool_decide_unpack _). vm_compute. exact I.
Defined.

(** X2. When a socket disconnects, it receives nothing itself, and every
    socket that remains open receives exactly one [count] event, sent with
    [io.emit], carrying the number of keys of [connectedUsers] after the
    socket has been removed.  The record store is untouched. *)
Theorem disconnect_counts_the_rest address id st :
  NoDup (sockets st) →
  received id (disconnect address id st).2 = []
  ∧ (∀ other, other ∈ sockets st → other ≠ id →
       received_via other (disconnect address id st).2
       = [(IoEmit,
           EvCount (userCount
                      (disconnect_untrack address id (connectedUsers st))))])
  ∧ db (disconnect address id st).1 = db st.
Proof.
  intros Hnd.
  assert (NoDup (filter (λ x, x ≠ id) (sockets st))) as Hnd'
    by (by apply NoDup_filter).
  unfold disconnect, on_disconnect, io_remove, set_connectedUsers.
  cbn [fst snd connectedUsers sockets db].
  split; [|split; [|done]].
  - unfold received. rewrite received_via_io_emit by done. cbn [sockets].
    rewrite decide_False; [done|]. rewrite list_elem_of_filter.
    by intros [? _].
  - intros other Ho Hne. rewrite received_via_io_emit by done.
    cbn [sockets]. rewrite decide_True; [done|].
    by apply list_elem_of_filter.
Qed.

Lemma disconnect_counts_the_rest_witness :
  received "A" (disconnect "10.0.0.7" "A" Demo.two_open).2 = []
  ∧ (∀ other, other ∈ sockets Demo.two_open → other ≠ "A" →
       received_via other (disconnect "10.0.0.7" "A" Demo.two_open).2
       = [(IoEmit,
           EvCount (userCount
                      (disconnect_untrack "10.0.0.7" "A"
                         (connectedUsers Demo.two_open))))])
  ∧ db (disconnect "10.0.0.7" "A" Demo.two_open).1 = db Demo.two_open.
Proof.
  apply (disconnect_counts_the_rest "10.0.0.7" "A" Demo.two_open).
  apply (bool_decide_unpack _). vm_compute. exact I.
Defined.

(** X3. The command [all] is private and read-only: it leaves the server
    state as it is, every packet it sends goes to the sender, and the
    sender receives exactly one event, the list when the store answers
    and the error "Failed to fetch todos" when it does not. *)
Theorem all_is_private_and_read_only id st :
  id ∈ sockets st →
  (on_all id st).1 = st
  ∧ (∀ via to ev, Deliver via to ev ∈ (on_all id st).2 → to = id)
  ∧ (up (db st) = false →
     received id (on_all id st).2 = [EvError "Failed to fetch todos"])
  ∧ (up (db st) = true →
     ∃ todos, received id (on_all id st).2 = [EvAll todos]).
Proof.
  intros Hid. unfold on_all, Todo_find_sort.
  destruct (up (db st)); simpl.
  - split; [done|]. split; [|split; [done|]].
    + intros via to ev [[=]|Hin]%elem_of_cons.
      by apply socket_emit_elem in Hin as [-> _].
    + intros _. eexists. unfold received.
      rewrite received_via_ack, received_via_socket_emit.
      by rewrite decide_True.
  - split; [done|]. split; [|split; [|done]].
    + intros via to ev Hin. by apply socket_emit_elem in Hin as [-> _].
    + intros _. unfold received. rewrite received_via_socket_emit.
      by rewrite decide_True.
Qed.

Lemma all_is_private_and_read_only_witness :
  (on_all "A" Demo.with_record).1 = Demo.with_record
  ∧ ∃ todos, received "A" (on_all "A" Demo.with_record).2 = [EvAll todos].
Proof.
  destruct (all_is_private_and_read_only "A" Demo.with_record)
    as (Hst & _ & _ & Hok).
  - apply (bool_decide_unpack _). vm_compute. exact I.
  - split; [exact Hst | apply Hok; reflexivity].
Defined.

(** X4. An [add] that cannot be saved, because the payload is [undefined]
    or [null], because the store is down, or because the schema rejects
    the record, does exactly one thing: it sends the error "Failed to
    create todo" to the sender.  The state is unchanged and nobody else
    hears of it. *)
Theorem failed_add_tells_the_sender_only (schema : Schema) id data now st :
  id ∈ sockets st →
  data = Undefined ∨ data = Null ∨ up (db st) = false
  ∨ (∀ init, add_todo_init data = Ok init → validate schema init = false) →
  on_add schema id data now st
  = (st, [Deliver SocketEmit id (EvError "Failed to create todo")]).
Proof.
  intros Hid Hwhy.
  assert (socket_emit st id (EvError "Failed to create todo")
          = [Deliver SocketEmit id (EvError "Failed to create todo")]) as He.
  { unfold socket_emit. by rewrite decide_True. }
  destruct (on_add_cases schema id data now st)
    as [(init & db' & t & Hi & Hs & _)|E]; [|by rewrite E, He].
  exfalso. unfold Todo_save in Hs.
  destruct Hwhy as [-> | [-> | [Hup | Hval]]]; try discriminate Hi.
  - by rewrite Hup in Hs.
  - destruct (up (db st)); simpl in Hs; [|done].
    by rewrite (Hval init Hi) in Hs.
Qed.

Lemma failed_add_tells_the_sender_only_witness :
  on_add Demo.schema "A" Undefined 5 Demo.two_open
  = (Demo.two_open, [Deliver SocketEmit "A" (EvError "Failed to create todo")]).
Proof.
  apply (failed_add_tells_the_sender_only Demo.schema "A" Undefined 5
           Demo.two_open).
  - apply (bool_decide_unpack _). vm_compute. exact I.
  - left. reflexivity.
Defined.

End ConnectionEvents.

(** ** The HTTP routes of routes/todos.js *)

Section HttpRoutes.
Import Js Store Server Http HttpMore.
Context (schema : Schema).
Implicit Types (st : State) (req : Request).

(** *** The branches of the handlers *)

Lemma get_todos_cases req st :
  (∃ c p todos,
      get (query req) "complete" = Ok c ∧ get (query req) "priority" = Ok p
      ∧ Todo_find_sort (get_todos_filter c p) (db st) = Ok todos
      ∧ get_todos req st
        = (st, [Ack (Found todos);
                Respond 200 (BodyList (length todos) todos)]))
  ∨ ∃ err, get_todos req st = (st, [Respond 500 (BodyError err)]).
Proof.
  unfold get_todos.
  destruct (get (query req) "complete") as [c|e] eqn:Ec; simpl; [|eauto].
  destruct (get (query req) "priority") as [p|e] eqn:Ep; simpl; [|eauto].
  fold (get_todos_filter c p).
  destruct (Todo_find_sort (get_todos_filter c p) (db st)) as [todos|e] eqn:Ef;
    simpl; [|eauto].
  left. by exists c, p, todos.
Qed.

Lemma post_todo_handler_cases req now st :
  (∃ init db' t,
      post_todo_init (body req) = Ok init
      ∧ Todo_save schema init now (db st) = Ok (db', t)
      ∧ post_todo_handler schema req now st
        = (set_db db' st,
           [Ack (Saved t);
            Respond 201 (BodyTodo "Todo created successfully" t)]))
  ∨ ∃ err, post_todo_handler schema req now st
           = (st, [Respond 500 (BodyError err)]).
Proof.
  unfold post_todo_handler.
  destruct (post_todo_init (body req)) as [init|e] eqn:Ei; simpl; [|eauto].
  destruct (Todo_save schema init now (db st)) as [[db' t]|e] eqn:Es; simpl;
    [|eauto].
  left. by exists init, db', t.
Qed.

Lemma put_todo_handler_cases req now st :
  (∃ v update db' t,
      get (params req) "todoId" = Ok v
      ∧ Todo_findByIdAndUpdate schema v update now (db st) = Ok (db', Some t)
      ∧ put_todo_handler schema req now st
        = (set_db db' st,
           [Ack (Updated (Some t));
            Respond 200 (BodyTodo "Todo updated successfully" t)]))
  ∨ (∃ v update,
        get (params req) "todoId" = Ok v
        ∧ Todo_findByIdAndUpdate schema v update now (db st)
          = Ok (db st, None))
    ∧ put_todo_handler schema req now st
      = (st, [Ack (Updated None); Respond 404 (BodyError "Todo not found")])
  ∨ ∃ err, put_todo_handler schema req now st
           = (st, [Respond 500 (BodyError err)]).
Proof.
  unfold put_todo_handler.
  destruct (get (params req) "todoId") as [v|e] eqn:Ev; simpl;
    [|right; right; eauto].
  destruct (get (body req) "title") as [title|e]; simpl;
    [|right; right; eauto].
  destruct (get (body req) "description") as [description|e]; simpl;
    [|right; right; eauto].
  destruct (get (body req) "complete") as [complete|e]; simpl;
    [|right; right; eauto].
  destruct (get (body req) "priority") as [priority|e]; simpl;
    [|right; right; eauto].
  destruct (get (body req) "dueDate") as [dueDate|e]; simpl;
    [|right; right; eauto].
  match goal with
  | |- context [Todo_findByIdAndUpdate schema v ?u now (db st)] =>
      destruct (Todo_findByIdAndUpdate schema v u now (db st))
        as [[db' [t|]]|e] eqn:Ef; simpl; [| |right; right; eauto]
  end.
  - left. eauto 10.
  - right; left. pose proof Ef as Ef'.
    apply Todo_findByIdAndUpdate_missing in Ef' as ->.
    rewrite set_db_same. eauto 10.
Qed.

Lemma patch_todo_handler_cases req now st :
  (∃ v title description complete priority dueDate db' t,
      get (params req) "todoId" = Ok v
      ∧ get (body req) "title" = Ok title
      ∧ get (body req) "description" = Ok description
      ∧ get (body req) "complete" = Ok complete
      ∧ get (body req) "priority" = Ok priority
      ∧ get (body req) "dueDate" = Ok dueDate
      ∧ Todo_findByIdAndUpdate schema v
          (Obj [("$set",
                 Obj (patch_updateFields title description complete priority
                                         dueDate now))])
          now (db st)
        = Ok (db', Some t)
      ∧ patch_todo_handler schema req now st
        = (set_db db' st,
           [Ack (Updated (Some t));
            Respond 200 (BodyTodo "Todo updated successfully" t)]))
  ∨ (∃ v update,
        get (params req) "todoId" = Ok v
        ∧ Todo_findByIdAndUpdate schema v update now (db st)
          = Ok (db st, None))
    ∧ patch_todo_handler schema req now st
      = (st, [Ack (Updated None); Respond 404 (BodyError "Todo not found")])
  ∨ ∃ err, patch_todo_handler schema req now st
           = (st, [Respond 500 (BodyError err)]).
Proof.
  unfold patch_todo_handler.
  destruct (get (body req) "title") as [title|e] eqn:E1; simpl;
    [|right; right; eauto].
  destruct (get (body req) "description") as [description|e] eqn:E2; simpl;
    [|right; right; eauto].
  destruct (get (body req) "complete") as [complete|e] eqn:E3; simpl;
    [|right; right; eauto].
  destruct (get (body req) "priority") as [priority|e] eqn:E4; simpl;
    [|right; right; eauto].
  destruct (get (body req) "dueDate") as [dueDate|e] eqn:E5; simpl;
    [|right; right; eauto].
  destruct (get (params req) "todoId") as [v|e] eqn:Ev; simpl;
    [|right; right; eauto].
  fold (patch_updateFields title description complete priority dueDate now).
  destruct (Todo_findByIdAndUpdate schema v
              (Obj [("$set",
                     Obj (patch_updateFields title description complete
                                             priority dueDate now))])
              now (db st)) as [[db' [t|]]|e] eqn:Ef; simpl;
    [| |right; right; eauto].
  - left. eauto 20.
  - right; left. pose proof Ef as Ef'.
    apply Todo_findByIdAndUpdate_missing in Ef' as ->.
    rewrite set_db_same. eauto 10.
Qed.

Lemma delete_todo_handler_cases req now st :
  (∃ v db' t,
      get (params req) "todoId" = Ok v
      ∧ Todo_findByIdAndDelete schema v (db st) = Ok (db', Some t)
      ∧ delete_todo_handler schema req now st
        = (set_db db' st,
           [Ack (Removed (Some t));
            Respond 200 (BodyTodo "Todo deleted successfully" t)]))
  ∨ (∃ v, get (params req) "todoId" = Ok v
          ∧ Todo_findByIdAndDelete schema v (db st) = Ok (db st, None))
    ∧ delete_todo_handler schema req now st
      = (st, [Ack (Removed None); Respond 404 (BodyError "Todo not found")])
  ∨ ∃ err, delete_todo_handler schema req now st
           = (st, [Respond 500 (BodyError err)]).
Proof.
  unfold delete_todo_handler.
  destruct (get (params req) "todoId") as [v|e] eqn:Ev; simpl;
    [|right; right; eauto].
  destruct (Todo_findByIdAndDelete schema v (db st)) as [[db' [t|]]|e] eqn:Ef;
    simpl; [| |right; right; eauto].
  - left. eauto 10.
  - right; left. pose proof Ef as Ef'.
    apply Todo_findByIdAndDelete_missing in Ef' as ->.
    rewrite set_db_same. eauto 10.
Qed.

End HttpRoutes.

Section HttpContract.
Import Js Store Server Http HttpMore.
Context (schema : Schema).
Context (validationResult : Route → Request → Request * list Value).
Implicit Types (st : State) (req : Request).

Ltac status_listed :=
  repeat first [apply list_elem_of_here | apply list_elem_of_further].

(** An answer alone, or after one store reply, meets the contract when the
    state is unchanged or the status is a success. *)
Lemma contract_of_failure statuses st status body :
  status ∈ statuses →
  route_contract statuses st (st, [Respond status body]).
Proof.
  intros Hs. split; [|done]. exists status, body. done.
Qed.

Lemma contract_of_reply statuses st st' r status body :
  status ∈ statuses →
  sockets st' = sockets st → connectedUsers st' = connectedUsers st →
  (status = 200 ∨ status = 201 ∨ st' = st) →
  route_contract statuses st (st', [Ack r; Respond status body]).
Proof.
  intros Hs Hsock Hcu Hok. split; [by exists status, body|].
  split; [done|]. split; [done|].
  intros status' Hin H200 H201. cbn in Hin.
  apply list_elem_of_singleton in Hin as ->.
  by destruct Hok as [? | [? | ?]].
Qed.

Lemma contract_of_validated statuses route handler req now st :
  400 ∈ statuses →
  (∀ req', route_contract statuses st (handler req' now st)) →
  route_contract statuses st
    (validated validationResult route handler req now st).
Proof.
  intros H400 Hh. unfold validated.
  destruct (validationResult route req) as [req' [|e errors]]; [apply Hh|].
  by apply contract_of_failure.
Qed.

(** X5. Every route of the todos router that lists, creates, replaces,
    patches or deletes answers exactly once, as its last effect, with a
    status of its own short list; it never touches the sockets or
    [connectedUsers]; and whenever its status is 400, 404 or 500 the whole
    server state, the store included, is as before the request. *)
Theorem todos_routes_keep_their_contract req now st :
  route_contract [200; 500] st (get_todos req st)
  ∧ route_contract [201; 400; 500] st
      (post_todo schema validationResult req now st)
  ∧ route_contract [200; 400; 404; 500] st
      (put_todo schema validationResult req now st)
  ∧ route_contract [200; 400; 404; 500] st
      (patch_todo schema validationResult req now st)
  ∧ route_contract [200; 400; 404; 500] st
      (delete_todo schema validationResult req now st).
Proof.
  split; [|split; [|split; [|split]]].
  - destruct (get_todos_cases req st)
      as [(c & p & todos & _ & _ & _ & ->)|[err ->]].
    + apply contract_of_reply; auto. status_listed.
    + apply contract_of_failure. status_listed.
  - apply contract_of_validated; [status_listed|]. intros req'.
    destruct (post_todo_handler_cases schema req' now st)
      as [(init & db' & t & _ & _ & ->)|[err ->]].
    + apply contract_of_reply; auto. status_listed.
    + apply contract_of_failure. status_listed.
  - apply contract_of_validated; [status_listed|]. intros req'.
    destruct (put_todo_handler_cases schema req' now st)
      as [(v & u & db' & t & _ & _ & ->)|[[_ ->]|[err ->]]].
    + apply contract_of_reply; auto. status_listed.
    + apply contract_of_reply; auto. status_listed.
    + apply contract_of_failure. status_listed.
  - apply contract_of_validated; [status_listed|]. intros req'.
    destruct (patch_todo_handler_cases schema req' now st)
      as [(v & f1 & f2 & f3 & f4 & f5 & db' & t & _ & _ & _ & _ & _ & _ & _
           & ->)|[[_ ->]|[err ->]]].
    + apply contract_of_reply; auto. status_listed.
    + apply contract_of_reply; auto. status_listed.
    + apply contract_of_failure. status_listed.
  - apply contract_of_validated; [status_listed|]. intros req'.
    destruct (delete_todo_handler_cases schema req' now st)
      as [(v & db' & t & _ & _ & ->)|[[_ ->]|[err ->]]].
    + apply contract_of_reply; auto. status_listed.
    + apply contract_of_reply; auto. status_listed.
    + apply contract_of_failure. status_listed.
Qed.

(** X6. For a request that passes the validators of its route, with the
    store up, a well-formed id that names no stored record is answered 404
    "Todo not found" by all four routes that take an id, and nothing is
    changed: by reading and deleting always, by replacing and patching
    when the update document the route builds from the body passes the
    update validators of the schema. *)
Theorem unknown_id_is_not_found
    (get_validation : Request → Request * list Value)
    req req' now st v oid title description complete priority dueDate :
  up (db st) = true →
  get (params req') "todoId" = Ok v →
  castObjectId schema v = Some oid →
  findById oid (docs (db st)) = None →
  get (body req') "title" = Ok title →
  get (body req') "description" = Ok description →
  get (body req') "complete" = Ok complete →
  get (body req') "priority" = Ok priority →
  get (body req') "dueDate" = Ok dueDate →
  (get_validation req = (req', []) →
   get_todo schema get_validation req st = (404, ReadError "Todo not found"))
  ∧ (validationResult DeleteTodo req = (req', []) →
     delete_todo schema validationResult req now st
     = (st, [Ack (Removed None); Respond 404 (BodyError "Todo not found")]))
  ∧ (validationResult PutTodo req = (req', []) →
     validateUpdate schema
       (put_update title description complete priority dueDate now) = true →
     put_todo schema validationResult req now st
     = (st, [Ack (Updated None); Respond 404 (BodyError "Todo not found")]))
  ∧ (validationResult PatchTodo req = (req', []) →
     validateUpdate schema
       (Obj [("$set",
              Obj (patch_updateFields title description complete priority
                                      dueDate now))]) = true →
     patch_todo schema validationResult req now st
     = (st, [Ack (Updated None); Respond 404 (BodyError "Todo not found")])).
Proof.
  intros Hup Hv Hc Hfind Ht Hd Hco Hp Hdue.
  assert (∀ update, validateUpdate schema update = true →
                    Todo_findByIdAndUpdate schema v update now (db st)
                    = Ok (db st, None)) as Hupd.
  { intros u Hval. unfold Todo_findByIdAndUpdate.
    by rewrite Hup, Hc, Hval, Hfind. }
  split; [|split; [|split]].
  - intros Hvr. unfold get_todo. rewrite Hvr.
    unfold get_todo_handler, Todo_findById. rewrite Hv. simpl.
    by rewrite Hup, Hc, Hfind.
  - intros Hvr. unfold delete_todo, validated. rewrite Hvr.
    unfold delete_todo_handler, Todo_findByIdAndDelete. rewrite Hv. simpl.
    rewrite Hup, Hc, Hfind. simpl. by rewrite set_db_same.
  - intros Hvr Hval. unfold put_todo, validated. rewrite Hvr.
    unfold put_todo_handler. rewrite Hv, Ht, Hd, Hco, Hp, Hdue. simpl.
    fold (put_update title description complete priority dueDate now).
    rewrite (Hupd _ Hval). simpl. by rewrite set_db_same.
  - intros Hvr Hval. unfold patch_todo, validated. rewrite Hvr.
    unfold patch_todo_handler. rewrite Hv, Ht, Hd, Hco, Hp, Hdue. simpl.
    fold (patch_updateFields title description complete priority dueDate
                             now).
    rewrite (Hupd _ Hval). simpl. by rewrite set_db_same.
Qed.

End HttpContract.

Lemma unknown_id_is_not_found_witness :
  HttpMore.get_todo Demo.schema (λ req, (req, []))
    {| Http.params := Js.Obj [("todoId", Js.Num 41)];
       Http.query := Js.Obj [];
       Http.body := Js.Obj [("title", Js.Str "abcd")] |} Demo.with_record
  = (404, HttpMore.ReadError "Todo not found")
  ∧ Http.delete_todo Demo.schema Demo.validationResult
      {| Http.params := Js.Obj [("todoId", Js.Num 41)];
         Http.query := Js.Obj [];
         Http.body := Js.Obj [("title", Js.Str "abcd")] |} 9 Demo.with_record
    = (Demo.with_record,
       [Server.Ack (Store.Removed None);
        Server.Respond 404 (Server.BodyError "Todo not found")])
  ∧ Http.put_todo Demo.schema Demo.validationResult
      {| Http.params := Js.Obj [("todoId", Js.Num 41)];
         Http.query := Js.Obj [];
         Http.body := Js.Obj [("title", Js.Str "abcd")] |} 9 Demo.with_record
    = (Demo.with_record,
       [Server.Ack (Store.Updated None);
        Server.Respond 404 (Server.BodyError "Todo not found")])
  ∧ Http.patch_todo Demo.schema Demo.validationResult
      {| Http.params := Js.Obj [("todoId", Js.Num 41)];
         Http.query := Js.Obj [];
         Http.body := Js.Obj [("title", Js.Str "abcd")] |} 9 Demo.with_record
    = (Demo.with_record,
       [Server.Ack (Store.Updated None);
        Server.Respond 404 (Server.BodyError "Todo not found")]).
Proof.
  destruct (unknown_id_is_not_found Demo.schema Demo.validationResult
              (λ req, (req, []))
              {| Http.params := Js.Obj [("todoId", Js.Num 41)];
                 Http.query := Js.Obj [];
                 Http.body := Js.Obj [("title", Js.Str "abcd")] |}
              {| Http.params := Js.Obj [("todoId", Js.Num 41)];
                 Http.query := Js.Obj [];
                 Http.body := Js.Obj [("title", Js.Str "abcd")] |}
              9 Demo.with_record (Js.Num 41) 41
              (Js.Str "abcd") Js.Undefined Js.Undefined Js.Undefined
              Js.Undefined
              eq_refl eq_refl eq_refl eq_refl eq_refl eq_refl eq_refl eq_refl
              eq_refl) as (Hget & Hdel & Hput & Hpatch).
  split; [exact (Hget eq_refl)|]. split; [exact (Hdel eq_refl)|].
  split; [exact (Hput eq_refl eq_refl) | exact (Hpatch eq_refl eq_refl)].
Defined.

Section HttpReadWrite.
Import Js Store Server Http HttpMore.
Context (schema : Schema).
Implicit Types (st : State) (req : Request) (t : Todo) (db : Store).

Lemma elem_of_sort_createdAt_desc t (l : list Todo) :
  t ∈ sort_createdAt_desc l ↔ t ∈ l.
Proof. by rewrite sort_createdAt_desc_perm. Qed.

Lemma elem_of_List_filter (f : Todo → bool) t (l : list Todo) :
  t ∈ List.filter f l ↔ t ∈ l ∧ f t = true.
Proof. rewrite !list_elem_of_In. apply filter_In. Qed.

Lemma defined_true v : defined v = true ↔ v ≠ Undefined.
Proof. destruct v; simpl; split; congruence. Qed.

(** X7. With the store up, stored records of the schema's types and a
    [priority] parameter that is missing or a plain string, [GET /todos]
    answers 200 with exactly the stored records that pass the filters of
    the query, most recently created first, and their number.  A
    [complete] parameter, whatever its value, filters: the string ["true"]
    selects the records whose [complete] is [true], any other value those
    whose [complete] is [false].  A missing or empty [priority] does not
    filter; any other string selects the records with that priority. *)
Theorem get_todos_filters req st c p :
  up (db st) = true →
  (∀ t, t ∈ docs (db st) → cast_to_schema t) →
  get (query req) "complete" = Ok c →
  get (query req) "priority" = Ok p →
  plain_parameter p →
  ∃ todos,
    get_todos req st
    = (st, [Ack (Found todos); Respond 200 (BodyList (length todos) todos)])
    ∧ (∀ t, t ∈ todos ↔
            t ∈ docs (db st)
            ∧ (c ≠ Undefined → complete t = Bool (is_true_string c))
            ∧ (∀ s, p = Str s → s ≠ EmptyString → priority t = Str s))
    ∧ StronglySorted newer_first todos.
Proof.
  intros Hup Htyped Hc Hp Hplain.
  exists (sort_createdAt_desc
            (List.filter (matches (get_todos_filter c p)) (docs (db st)))).
  split; [|split].
  - unfold get_todos, Todo_find_sort. rewrite Hc, Hp, Hup. done.
  - intros t. rewrite elem_of_sort_createdAt_desc, elem_of_List_filter.
    unfold matches, get_todos_filter. cbn [filter_complete filter_priority].
    rewrite andb_true_iff. split.
    + intros (Hin & Hm1 & Hm2). split; [done|].
      destruct (Htyped t Hin) as [[b Hb] [s0 Hs0]]. split.
      * intros Hd%defined_true. rewrite Hd, Hb in Hm1. simpl in Hm1.
        apply Bool.eqb_prop in Hm1. by rewrite Hb, Hm1.
      * intros s -> Hs. simpl in Hm2.
        apply String.eqb_neq in Hs. rewrite Hs in Hm2. simpl in Hm2.
        rewrite Hs0 in Hm2. simpl in Hm2. apply String.eqb_eq in Hm2.
        by rewrite Hs0, Hm2.
    + intros (Hin & Hco & Hpr). split; [done|]. split.
      * destruct (defined c) eqn:Hd; [|done]. apply defined_true in Hd.
        rewrite (Hco Hd). simpl. apply Bool.eqb_reflx.
      * destruct Hplain as [->|[s ->]]; [done|]. simpl.
        destruct (String.eqb s EmptyString) eqn:E; [done|]. simpl.
        apply String.eqb_neq in E. rewrite (Hpr s eq_refl E). simpl.
        apply String.eqb_refl.
  - apply sort_createdAt_desc_sorted.
Qed.

Lemma get_todos_filters_witness :
  ∃ todos,
    get_todos {| params := Obj [];
                 query := Obj [("complete", Str "yes");
                               ("priority", Str "medium")];
                 body := Obj [] |} Demo.with_record
    = (Demo.with_record,
       [Ack (Found todos); Respond 200 (BodyList (length todos) todos)])
    ∧ (∀ t, t ∈ todos ↔
            t ∈ docs (db Demo.with_record)
            ∧ (Str "yes" ≠ Undefined →
               complete t = Bool (is_true_string (Str "yes")))
            ∧ (∀ s, Str "medium" = Str s → s ≠ EmptyString →
                    priority t = Str s))
    ∧ StronglySorted newer_first todos.
Proof.
  apply (get_todos_filters
           {| params := Obj [];
              query := Obj [("complete", Str "yes");
                            ("priority", Str "medium")];
              body := Obj [] |} Demo.with_record (Str "yes") (Str "medium")).
  - reflexivity.
  - intros t Ht. apply list_elem_of_singleton in Ht. rewrite Ht.
    split; [exists false | exists "medium"]; reflexivity.
  - reflexivity.
  - reflexivity.
  - right. exists "medium". reflexivity.
Defined.

(** The record of the store above is not complete: [?complete=yes] lists
    it, [?complete=true] does not. *)
Lemma complete_parameter_on_the_demo_store :
  (get_todos {| params := Obj []; query := Obj [("complete", Str "yes")];
                body := Obj [] |} Demo.with_record).2
  = [Ack (Found [Demo.first_todo "xyz" 5]);
     Respond 200 (BodyList 1 [Demo.first_todo "xyz" 5])]
  ∧ (get_todos {| params := Obj []; query := Obj [("complete", Str "true")];
                  body := Obj [] |} Demo.with_record).2
    = [Ack (Found []); Respond 200 (BodyList 0 [])].
Proof. split; reflexivity. Qed.

(** *** Saving, then reading or deleting *)

Lemma Todo_save_ids init now db db' t :
  Todo_save schema init now db = Ok (db', t) →
  up db = true ∧ up db' = true ∧ _id t = next_id db
  ∧ next_id db' = S (next_id db) ∧ docs db' = docs db ++ [t].
Proof.
  unfold Todo_save. destruct (up db) eqn:Hup; simpl; [|done].
  destruct (validate schema init); simpl; [|done].
  by intros [= <- <-].
Qed.

Lemma findById_fresh oid (l : list Todo) :
  (∀ x, x ∈ l → _id x < oid) → findById oid l = None.
Proof.
  unfold findById. induction l as [|x l IH]; intros Hlt; [done|]. simpl.
  destruct (_id x =? oid) eqn:E.
  - apply Nat.eqb_eq in E. specialize (Hlt x ltac:(left)). lia.
  - apply IH. intros y Hy. apply Hlt. by right.
Qed.

Lemma findById_appended t (l : list Todo) :
  (∀ x, x ∈ l → _id x < _id t) → findById (_id t) (l ++ [t]) = Some t.
Proof.
  unfold findById. induction l as [|x l IH]; intros Hlt; simpl.
  - by rewrite Nat.eqb_refl.
  - destruct (_id x =? _id t) eqn:E.
    + apply Nat.eqb_eq in E. specialize (Hlt x ltac:(left)). lia.
    + apply IH. intros y Hy. apply Hlt. by right.
Qed.

Lemma filter_out_appended t (l : list Todo) :
  (∀ x, x ∈ l → _id x < _id t) →
  List.filter (λ x, negb (_id x =? _id t)) (l ++ [t]) = l.
Proof.
  induction l as [|x l IH]; intros Hlt; simpl.
  - by rewrite Nat.eqb_refl.
  - destruct (_id x =? _id t) eqn:E; simpl.
    + apply Nat.eqb_eq in E. specialize (Hlt x ltac:(left)). lia.
    + rewrite IH; [done|]. intros y Hy. apply Hlt. by right.
Qed.

(** X8. A record created by [POST /todos] can be read back at once: the
    unfiltered [GET /todos] lists it, with one record more than before,
    and [GET /todos/:todoId] with its id answers 200 with that very
    record.  The store keeps handing out ids above all stored ones. *)
Theorem posted_record_is_read_back req now st t req_list req_one v :
  ids_below_next (db st) →
  Ack (Saved t) ∈ (post_todo_handler schema req now st).2 →
  get (query req_list) "complete" = Ok Undefined →
  get (query req_list) "priority" = Ok Undefined →
  get (params req_one) "todoId" = Ok v →
  castObjectId schema v = Some (_id t) →
  (∃ todos,
      (get_todos req_list (post_todo_handler schema req now st).1).2
      = [Ack (Found todos); Respond 200 (BodyList (length todos) todos)]
      ∧ t ∈ todos ∧ length todos = S (length (docs (db st))))
  ∧ get_todo_handler schema req_one (post_todo_handler schema req now st).1
    = (200, ReadData t)
  ∧ ids_below_next (db (post_todo_handler schema req now st).1).
Proof.
  intros Hids Hack Hc Hp Hv Hcast.
  apply post_todo_handler_saved in Hack as (init & db' & Hi & Hs).
  destruct (post_todo_handler_cases schema req now st)
    as [(init' & db'' & t' & Hi' & Hs' & E)|[err E]];
    [|unfold post_todo_handler in E; rewrite Hi in E; simpl in E;
      rewrite Hs in E; discriminate E].
  rewrite Hi in Hi'. injection Hi' as <-. rewrite Hs in Hs'.
  injection Hs' as <- <-. rewrite E. cbn [fst].
  apply Todo_save_ids in Hs as (_ & Hup' & Hid & Hnext & Hdocs).
  assert (∀ x, x ∈ docs (db st) → _id x < _id t) as Hlt.
  { intros x Hx. rewrite Hid. by apply Hids. }
  split; [|split].
  - exists (sort_createdAt_desc (docs db')). split; [|split].
    + unfold get_todos, Todo_find_sort. rewrite Hc, Hp. simpl.
      cbn [db set_db]. rewrite Hup'. simpl. fold no_filter.
      by rewrite filter_no_filter.
    + rewrite elem_of_sort_createdAt_desc, Hdocs.
      apply elem_of_app. right. left.
    + rewrite sort_createdAt_desc_perm, Hdocs, length_app. simpl. lia.
  - unfold get_todo_handler, Todo_findById. rewrite Hv. simpl.
    cbn [db set_db]. rewrite Hup', Hcast. simpl.
    by rewrite Hdocs, findById_appended.
  - intros x. cbn [db set_db]. rewrite Hdocs, Hnext.
    intros [Hx| ->%list_elem_of_singleton]%elem_of_app.
    + apply Hids in Hx. lia.
    + lia.
Qed.

End HttpReadWrite.

Lemma posted_record_is_read_back_witness :
  HttpMore.get_todo_handler Demo.schema
    {| Http.params := Js.Obj [("todoId", Js.Num 1)];
       Http.query := Js.Obj []; Http.body := Js.Obj [] |}
    (Http.post_todo_handler Demo.schema
       {| Http.params := Js.Obj []; Http.query := Js.Obj [];
          Http.body := Js.Obj [("title", Js.Str "abc")] |}
       9 Demo.with_record).1
  = (200, HttpMore.ReadData (Demo.second_todo "abc" 9)).
Proof.
  apply (posted_record_is_read_back Demo.schema
           {| Http.params := Js.Obj []; Http.query := Js.Obj [];
              Http.body := Js.Obj [("title", Js.Str "abc")] |}
           9 Demo.with_record (Demo.second_todo "abc" 9)
           {| Http.params := Js.Obj []; Http.query := Js.Obj [];
              Http.body := Js.Obj [] |}
           {| Http.params := Js.Obj [("todoId", Js.Num 1)];
              Http.query := Js.Obj []; Http.body := Js.Obj [] |}
           (Js.Num 1)).
  - intros x Hx. apply list_elem_of_singleton in Hx. rewrite Hx.
    simpl. lia.
  - vm_compute. apply list_elem_of_here.
  - reflexivity.
  - reflexivity.
  - reflexivity.
  - reflexivity.
Defined.

Section SessionRoundTrip.
Import Js Store Server Http HttpMore.
Context (schema : Schema).
Implicit Types (st : State) (t : Todo).

(** X9. A record added by one session and then deleted by its id, by any
    open session, leaves the stored records exactly as they were before
    the add, and every open socket receives exactly one [deleted] event
    carrying the id as the client gave it. *)
Theorem add_then_delete_restores_records A B data data' v now st t :
  NoDup (sockets st) → A ∈ sockets st → B ∈ sockets st →
  ids_below_next (db st) →
  Ack (Saved t) ∈ (on_add schema A data now st).2 →
  get data' "id" = Ok v →
  castObjectId schema v = Some (_id t) →
  docs (db (on_delete schema B data' (on_add schema A data now st).1).1)
  = docs (db st)
  ∧ ∀ s, s ∈ sockets st →
      received s (on_delete schema B data' (on_add schema A data now st).1).2
      = [EvDeleted v].
Proof.
  intros Hnd HA HB Hids Hack Hv Hcast.
  pose proof Hack as (init & db' & Hi & Hs)%on_add_saved.
  destruct (on_add_cases schema A data now st)
    as [(init' & db'' & t' & Hi' & Hs' & E)|E]; rewrite E in *; cbn [fst snd].
  2: { exfalso. eapply ack_not_delivery; [|exact Hack].
       apply socket_emit_deliveries. }
  rewrite Hi in Hi'. injection Hi' as <-. rewrite Hs in Hs'.
  injection Hs' as <- <-.
  apply Todo_save_ids in Hs as (_ & Hup' & Hid & Hnext & Hdocs).
  assert (∀ x, x ∈ docs (db st) → _id x < _id t) as Hlt.
  { intros x Hx. rewrite Hid. by apply Hids. }
  assert (Todo_findByIdAndDelete schema v db'
          = Ok ({| docs := docs (db st); next_id := next_id db';
                   up := up db' |}, Some t)) as Hdel.
  { unfold Todo_findByIdAndDelete. rewrite Hup', Hcast. simpl.
    rewrite Hdocs, findById_appended by done.
    by rewrite filter_out_appended. }
  unfold on_delete. rewrite Hv. simpl. cbn [db set_db]. rewrite Hdel. simpl.
  split; [done|]. intros s Hin.
  match goal with
  | |- context [socket_emit ?st' B _] =>
      destruct (received_via_ack_emit_broadcast st' B (EvDeleted v)
                  (Removed (Some t)) Hnd HB) as [Hb Ho]
  end.
  unfold received. destruct (decide (s = B)) as [->|Hne].
  - by rewrite Hb.
  - by rewrite (Ho s Hin Hne).
Qed.

End SessionRoundTrip.

Lemma add_then_delete_restores_records_witness :
  Store.docs (Server.db
    (Server.on_delete Demo.schema "B" (Js.Obj [("id", Js.Num 1)])
       (Server.on_add Demo.schema "A" (Js.Obj [("title", Js.Str "abc")]) 9
          Demo.with_record).1).1)
  = Store.docs (Server.db Demo.with_record).
Proof.
  apply (add_then_delete_restores_records Demo.schema "A" "B"
           (Js.Obj [("title", Js.Str "abc")]) (Js.Obj [("id", Js.Num 1)])
           (Js.Num 1) 9 Demo.with_record (Demo.second_todo "abc" 9)).
  - apply (bool_decide_unpack _). vm_compute. exact I.
  - apply (bool_decide_unpack _). vm_compute. exact I.
  - apply (bool_decide_unpack _). vm_compute. exact I.
  - intros x Hx. apply list_elem_of_singleton in Hx. rewrite Hx.
    simpl. lia.
  - vm_compute. apply list_elem_of_here.
  - reflexivity.
  - reflexivity.
Defined.

Section PatchFields.
Import Js Store Server Http HttpMore.
Context (schema : Schema).
Implicit Types (st : State) (req : Request) (t : Todo).

Lemma Todo_findByIdAndUpdate_result v update now (db : Store) db' t :
  Todo_findByIdAndUpdate schema v update now db = Ok (db', Some t) →
  ∃ oid t0, castObjectId schema v = Some oid
            ∧ findById oid (docs db) = Some t0
            ∧ t = applyUpdate schema update now t0.
Proof.
  unfold Todo_findByIdAndUpdate. destruct (up db); simpl; [|done].
  destruct (castObjectId schema v) as [oid|]; [|done].
  destruct (validateUpdate schema update); simpl; [|done].
  destruct (findById oid (docs db)) as [t0|] eqn:E; [|done].
  intros [= _ <-]. eauto.
Qed.

Lemma elem_of_field_if_defined k x k' v :
  (k, x) ∈ field_if_defined k' v ↔ k = k' ∧ x = v ∧ v ≠ Undefined.
Proof.
  unfold field_if_defined. rewrite <- defined_true.
  destruct (defined v).
  - rewrite list_elem_of_singleton. naive_solver.
  - split; [by intros ?%not_elem_of_nil | by intros (_ & _ & ?)].
Qed.

Lemma elem_of_patch_updateFields k x title description complete priority
    dueDate now :
  (k, x) ∈ patch_updateFields title description complete priority dueDate now
  ↔ (k = "title" ∧ x = title ∧ title ≠ Undefined)
    ∨ (k = "description" ∧ x = description ∧ description ≠ Undefined)
    ∨ (k = "complete" ∧ x = complete ∧ complete ≠ Undefined)
    ∨ (k = "priority" ∧ x = priority ∧ priority ≠ Undefined)
    ∨ (k = "dueDate" ∧ x = dueDate ∧ dueDate ≠ Undefined)
    ∨ (k = "updatedAt" ∧ x = Num (Z.of_nat now)).
Proof.
  unfold patch_updateFields.
  rewrite !elem_of_app, !elem_of_field_if_defined, list_elem_of_singleton.
  naive_solver.
Qed.

(** X10. When [PATCH /todos/:todoId] updates a record, the update it hands
    to the store is a [$set] of exactly these fields: [updatedAt] with the
    current time, always, and each of [title], [description], [complete],
    [priority], [dueDate] that the body gives with a value other than
    [undefined] ([null] included), with that value.  A field the body
    leaves out is never set. *)
Theorem patch_sets_what_the_body_gives req now st t :
  Ack (Updated (Some t)) ∈ (patch_todo_handler schema req now st).2 →
  ∃ fields oid t0 v,
    get (params req) "todoId" = Ok v
    ∧ castObjectId schema v = Some oid
    ∧ findById oid (docs (db st)) = Some t0
    ∧ t = applyUpdate schema (Obj [("$set", Obj fields)]) now t0
    ∧ ("updatedAt", Num (Z.of_nat now)) ∈ fields
    ∧ (∀ k x, (k, x) ∈ fields → k ≠ "updatedAt" →
              k ∈ ["title"; "description"; "complete"; "priority"; "dueDate"]
              ∧ get (body req) k = Ok x ∧ x ≠ Undefined)
    ∧ (∀ k x,
         k ∈ ["title"; "description"; "complete"; "priority"; "dueDate"] →
         get (body req) k = Ok x → x ≠ Undefined → (k, x) ∈ fields).
Proof.
  intros Hack.
  destruct (patch_todo_handler_cases schema req now st)
    as [(v & f1 & f2 & f3 & f4 & f5 & db' & t' & Hv & H1 & H2 & H3 & H4 & H5
         & Hf & E)|[[_ E]|[err E]]]; rewrite E in Hack; cbn [snd] in Hack.
  - apply elem_of_cons in Hack as [[= ->]|Hack].
    2: { apply list_elem_of_singleton in Hack. discriminate Hack. }
    apply Todo_findByIdAndUpdate_result in Hf as (oid & t0 & Hc & Hfind & ->).
    exists (patch_updateFields f1 f2 f3 f4 f5 now), oid, t0, v.
    split; [done|]. split; [done|]. split; [done|]. split; [done|].
    split; [|split].
    + apply elem_of_patch_updateFields. naive_solver.
    + intros k x Hin Hk. apply elem_of_patch_updateFields in Hin.
      destruct Hin as [(-> & -> & ?)|[(-> & -> & ?)|[(-> & -> & ?)
        |[(-> & -> & ?)|[(-> & -> & ?)|(-> & _)]]]]]; [..|done];
        (split; [|done]);
        repeat first [apply list_elem_of_here | apply list_elem_of_further].
    + intros k x Hk Hget Hx. apply elem_of_patch_updateFields.
      repeat (apply elem_of_cons in Hk as [->|Hk]);
        [..|by apply not_elem_of_nil in Hk];
        rewrite Hget in *; simplify_eq; naive_solver.
  - apply elem_of_cons in Hack as [[=]|Hack].
    apply list_elem_of_singleton in Hack. discriminate Hack.
  - apply list_elem_of_singleton in Hack. discriminate Hack.
Qed.

End PatchFields.

Lemma patch_sets_what_the_body_gives_witness :
  ∃ fields oid t0 v,
    Js.get (Js.Obj [("todoId", Js.Num 0)]) "todoId" = Ok v
    ∧ Store.castObjectId Demo.schema v = Some oid
    ∧ Store.findById oid (Store.docs (Server.db Demo.with_record)) = Some t0
    ∧ Store.applyUpdate Demo.schema
        (Js.Obj [("$set", Js.Obj [("complete", Js.Bool true);
                                  ("updatedAt", Js.Num 7)])]) 7
        (Demo.first_todo "xyz" 5)
      = Store.applyUpdate Demo.schema (Js.Obj [("$set", Js.Obj fields)]) 7 t0
    ∧ ("updatedAt", Js.Num (Z.of_nat 7)) ∈ fields.
Proof.
  destruct (patch_sets_what_the_body_gives Demo.schema
              {| Http.params := Js.Obj [("todoId", Js.Num 0)];
                 Http.query := Js.Obj [];
                 Http.body := Js.Obj [("complete", Js.Bool true)] |}
              7 Demo.with_record
              (Store.applyUpdate Demo.schema
                 (Js.Obj [("$set", Js.Obj [("complete", Js.Bool true);
                                           ("updatedAt", Js.Num 7)])]) 7
                 (Demo.first_todo "xyz" 5)))
    as (fields & oid & t0 & v & Hv & Hc & Hf & Ht & Hu & _).
  - vm_compute. apply list_elem_of_here.
  - exists fields, oid, t0, v. repeat split; assumption.
Defined.

(** ** The legacy server against the current one *)

Section LegacyAgreement.
Import Registry LegacyTrace.
Implicit Types (al : Legacy.AddressList) (cu : Registry)
               (l : list (option string)) (a s id : string).

Lemma live_app_id l id : live (l ++ [Some id]) = live l ++ [id].
Proof. unfold live. by rewrite omap_app. Qed.

Lemma keys_length_live l : Legacy.keys_length l = length (live l).
Proof.
  unfold Legacy.keys_length, live. induction l as [|[x|] l IH].
  - done.
  - rewrite filter_cons_True by eauto. simpl. by rewrite IH.
  - rewrite filter_cons_False by (by intros [? ?]). done.
Qed.

(** [delete socketid[socketid.indexOf(id)]] drops the id from the ids
    held, when no id is held twice. *)
Lemma live_delete_indexOf id l :
  NoDup (live l) →
  live (match Legacy.indexOf id l with
        | Some i => <[i := None]> l
        | None => l
        end)
  = filter (λ x, x ≠ id) (live l).
Proof.
  induction l as [|x l IH]; intros Hnd; [done|]. cbn [Legacy.indexOf].
  destruct (decide (x = Some id)) as [->|Hx].
  - change (live (Some id :: l)) with (id :: live l) in *.
    change (live (<[0 := None]> (Some id :: l))) with (live l).
    apply NoDup_cons in Hnd as [Hid _].
    rewrite filter_cons_False by (by intros ?).
    by rewrite filter_ne_all.
  - assert (NoDup (live l)) as Hnd'.
    { destruct x; [by apply NoDup_cons in Hnd as [_ ?] | done]. }
    specialize (IH Hnd').
    assert (filter (λ y, y ≠ id) (live (x :: l))
            = live [x] ++ filter (λ y, y ≠ id) (live l)) as ->.
    { destruct x as [y|]; [|done].
      change (live (Some y :: l)) with (y :: live l).
      rewrite filter_cons_True; [done|]. intros ->. by apply Hx. }
    rewrite <- IH.
    destruct (Legacy.indexOf id l) as [i|]; cbn [fmap option_fmap option_map];
      by destruct x.
Qed.

Lemma agree_track a s al cu :
  agree al cu →
  agree (Legacy.connection_track a s al) (connection_track a s cu).
Proof.
  unfold agree. intros ->. apply map_eq. intros b.
  unfold Legacy.connection_track. destruct (decide (a = b)) as [<-|Hab].
  - rewrite connection_track_lookup_eq. unfold sessions_of.
    rewrite !lookup_fmap.
    destruct (al !! a) as [l|] eqn:E; rewrite lookup_insert_eq;
      cbn [fmap option_fmap option_map default].
    + by rewrite live_app_id.
    + done.
  - rewrite connection_track_lookup_ne by done. rewrite !lookup_fmap.
    destruct (al !! a); by rewrite lookup_insert_ne.
Qed.

Lemma agree_untrack a s al cu l :
  agree al cu → live_ids_unique al → al !! a = Some l →
  ∃ al', Legacy.disconnect_untrack a s al = Ok al'
         ∧ agree al' (disconnect_untrack a s cu)
         ∧ live_ids_unique al'.
Proof.
  unfold agree. intros -> Hnd E. unfold Legacy.disconnect_untrack.
  rewrite E.
  pose proof (live_delete_indexOf s l (Hnd a l E)) as Hlive.
  set (l1 := match Legacy.indexOf s l with
             | Some i => <[i := None]> l
             | None => l
             end) in *.
  assert (NoDup (live l1)) as Hnd1.
  { rewrite Hlive. apply NoDup_filter. by eapply Hnd. }
  rewrite keys_length_live, Hlive.
  case_decide as Hlen; eexists; (split; [done|]); split.
  - apply map_eq. intros b. destruct (decide (a = b)) as [<-|Hab].
    + rewrite disconnect_untrack_lookup_eq, !lookup_fmap, E. simpl.
      rewrite lookup_delete_eq. apply length_zero_iff_nil in Hlen.
      by rewrite decide_True.
    + rewrite disconnect_untrack_lookup_ne by done. rewrite !lookup_fmap.
      by rewrite lookup_delete_ne, lookup_insert_ne.
  - intros b l' Hb. destruct (decide (a = b)) as [<-|Hab].
    + by rewrite lookup_delete_eq in Hb.
    + rewrite lookup_delete_ne, lookup_insert_ne in Hb by done.
      by eapply Hnd.
  - apply map_eq. intros b. destruct (decide (a = b)) as [<-|Hab].
    + rewrite disconnect_untrack_lookup_eq, !lookup_fmap, E. simpl.
      rewrite lookup_insert_eq. simpl. rewrite decide_False; [by rewrite Hlive|].
      intros Hnil. by rewrite Hnil in Hlen.
    + rewrite disconnect_untrack_lookup_ne by done. rewrite !lookup_fmap.
      by rewrite lookup_insert_ne.
  - intros b l' Hb. destruct (decide (a = b)) as [<-|Hab].
    + rewrite lookup_insert_eq in Hb. by injection Hb as <-.
    + rewrite lookup_insert_ne in Hb by done. by eapply Hnd.
Qed.

Lemma legacy_run_agrees ops al cu opened used :
  agree al cu → live_ids_unique al → represents cu opened →
  (∀ a s, (a, s) ∈ opened → s ∈ used) →
  socket_io_trace opened used ops →
  ∃ al', LegacyTrace.run ops al = Ok al' ∧ agree al' (Registry.run ops cu).
Proof.
  revert al cu opened used.
  induction ops as [|[a s|a s] ops IH];
    intros al cu opened used Hag Hnd Hrep Hused Htr.
  - by exists al.
  - destruct Htr as [Hfresh Htr]. simpl.
    eapply (IH _ _ _ _ (agree_track a s al cu Hag)); [| | |exact Htr].
    + intros b l Hb. unfold Legacy.connection_track in Hb.
      destruct (decide (a = b)) as [<-|Hab].
      * destruct (al !! a) as [l0|] eqn:E.
        -- rewrite lookup_insert_eq in Hb. injection Hb as <-.
           rewrite live_app_id. apply NoDup_app.
           split; [by eapply Hnd|]. split; [|apply NoDup_singleton].
           intros x Hx ->%list_elem_of_singleton. apply Hfresh.
           apply (Hused a). apply Hrep. rewrite Hag. unfold sessions_of.
           by rewrite lookup_fmap, E.
        -- rewrite lookup_insert_eq in Hb. injection Hb as <-.
           apply NoDup_singleton.
      * destruct (al !! a); rewrite lookup_insert_ne in Hb by done;
          by eapply Hnd.
    + by apply represents_track.
    + intros b t [[= -> ->]%elem_of_singleton|Hin]%elem_of_union.
      * apply elem_of_union_l, elem_of_singleton. done.
      * apply elem_of_union_r. by eapply Hused.
  - destruct Htr as [Hopen Htr]. simpl.
    assert (∃ l, al !! a = Some l) as [l E].
    { apply Hrep in Hopen. rewrite Hag in Hopen. unfold sessions_of in Hopen.
      rewrite lookup_fmap in Hopen. destruct (al !! a) as [l|]; [eauto|].
      by apply not_elem_of_nil in Hopen. }
    destruct (agree_untrack a s al cu l Hag Hnd E) as (al1 & -> & Hag1 & Hnd1).
    simpl.
    eapply (IH _ _ _ _ Hag1 Hnd1); [| |exact Htr].
    + by apply represents_untrack.
    + intros b t [Hin _]%elem_of_difference. by eapply Hused.
Qed.

(** X11. On the traces Socket.io produces (new ids for new connections,
    one disconnect per connected socket, from the address it connected
    from) the legacy disconnect handler never throws, and the legacy
    [address_list] agrees with [connectedUsers] of the current server
    after every step: same addresses, same ids still held per address,
    and so the same user count. *)
Theorem legacy_agrees_with_current (ops : list RegOp) :
  socket_io_trace ∅ ∅ ops →
  ∃ address_list,
    LegacyTrace.run ops ∅ = Ok address_list
    ∧ live <$> address_list = Registry.run ops ∅
    ∧ Legacy.users address_list = userCount (Registry.run ops ∅).
Proof.
  intros Htr.
  assert (agree ∅ ∅) as H0 by (unfold agree; by rewrite fmap_empty).
  assert (live_ids_unique ∅) as H1 by (intros a l; by rewrite lookup_empty).
  assert (∀ a s, (a, s) ∈ (∅ : gset (string * string)) →
                 s ∈ (∅ : gset string)) as H2
    by (intros a s Hin; by apply not_elem_of_empty in Hin).
  destruct (legacy_run_agrees ops ∅ ∅ ∅ ∅ H0 H1 represents_empty H2 Htr)
    as (al & Hrun & Hag).
  exists al. split; [done|]. split; [done|].
  unfold Legacy.users, userCount. rewrite Hag. by rewrite map_size_fmap.
Qed.

Lemma legacy_agrees_with_current_witness :
  ∃ address_list,
    LegacyTrace.run [Open "10.0.0.7" "s1"; Open "10.0.0.7" "s2";
                     Close "10.0.0.7" "s1"; Close "10.0.0.7" "s2"] ∅
    = Ok address_list
    ∧ live <$> address_list
      = Registry.run [Open "10.0.0.7" "s1"; Open "10.0.0.7" "s2";
                      Close "10.0.0.7" "s1"; Close "10.0.0.7" "s2"] ∅
    ∧ Legacy.users address_list
      = userCount (Registry.run [Open "10.0.0.7" "s1"; Open "10.0.0.7" "s2";
                                 Close "10.0.0.7" "s1"; Close "10.0.0.7" "s2"]
                                ∅).
Proof.
  apply (legacy_agrees_with_current
           [Open "10.0.0.7" "s1"; Open "10.0.0.7" "s2";
            Close "10.0.0.7" "s1"; Close "10.0.0.7" "s2"]).
  simpl. repeat split; try set_solver.
Defined.

End LegacyAgreement.

Section LegacyEvents.
Import LegacyServer.
Implicit Types (st : State) (id to address : string) (ev : Event).

Lemma legacy_received_app to (d1 d2 : list (string * Event)) :
  received to (d1 ++ d2) = received to d1 ++ received to d2.
Proof. unfold received. by rewrite filter_app, fmap_app. Qed.

Lemma legacy_received_fanout to ev (l : list string) :
  NoDup l →
  received to (map (λ t, (t, ev)) l) = if decide (to ∈ l) then [ev] else [].
Proof.
  unfold received. induction 1 as [|x l Hx Hnd IH].
  - by rewrite decide_False by apply not_elem_of_nil.
  - change (map (λ t, (t, ev)) (x :: l))
      with ((x, ev) :: map (λ t, (t, ev)) l).
    destruct (decide (x = to)) as [->|Hne].
    + rewrite filter_cons_True by done. cbn [fmap list_fmap snd].
      change (list_fmap _ _ snd ?l) with (l.*2). rewrite IH.
      rewrite (decide_False (P := to ∈ l)) by done.
      by rewrite decide_True by left.
    + rewrite filter_cons_False by done. rewrite IH.
      destruct (decide (to ∈ l)) as [Hin|Hin].
      * by rewrite decide_True by (by right).
      * rewrite decide_False; [done|].
        intros [->|?]%elem_of_cons; done.
Qed.

Lemma legacy_received_socket_emit st id ev to :
  received to (socket_emit st id ev)
  = if decide (id ∈ sockets st ∧ to = id) then [ev] else [].
Proof.
  unfold socket_emit, received.
  destruct (decide (id ∈ sockets st)) as [Hin|Hin].
  - destruct (decide (id = to)) as [->|Hne].
    + rewrite filter_cons_True by done. by rewrite decide_True.
    + rewrite filter_cons_False by done. rewrite decide_False; [done|].
      by intros [_ ->].
  - rewrite decide_False; [done|]. by intros [? _].
Qed.

(** A socket is alone in the room named after it: taking out the sender
    leaves nobody. *)
Lemma own_room_without_sender id (l : list string) :
  filter (λ x, x = id) (filter (λ x, x ≠ id) l) = [].
Proof.
  induction l as [|x l IH]; [done|].
  destruct (decide (x = id)) as [->|Hne].
  - by rewrite (filter_cons_False (λ x, x ≠ id)) by (by intros ?).
  - rewrite (filter_cons_True (λ x, x ≠ id)) by done.
    by rewrite filter_cons_False.
Qed.

(** X12. In the legacy server a new connection makes every connected
    socket, the new one included, receive exactly one [count] event with
    the number of keys of [address_list]; the third emission of the
    handler, [socket.broadcast.to(socket.id).emit("all", ...)], reaches
    nobody.  A disconnection of a socket whose address has an entry sends
    one [count] event to each socket that remains and nothing to the
    socket that left. *)
Theorem legacy_connection_events address id st :
  NoDup (sockets st) →
  (id ∉ sockets st →
   (∀ to, to ∈ sockets st ∨ to = id →
      received to (connect address id st).2
      = [EvCount (Legacy.users
                    (Legacy.connection_track address id (address_list st)))])
   ∧ (∀ to count, (to, EvAll count) ∉ (connect address id st).2))
  ∧ (is_Some (address_list st !! address) →
     ∃ out, disconnect address id st = Ok out
            ∧ received id out.2 = []
            ∧ ∀ to, to ∈ sockets st → to ≠ id →
                received to out.2
                = [EvCount (Legacy.users (address_list out.1))]).
Proof.
  intros Hnd. split.
  - intros Hfresh.
    assert (NoDup (sockets st ++ [id])) as Hnd'.
    { apply NoDup_app. split; [done|]. split; [|apply NoDup_singleton].
      intros x Hx ->%list_elem_of_singleton. by apply Hfresh. }
    unfold connect, on_connection. cbn [fst snd address_list sockets].
    unfold socket_broadcast_to_emit. rewrite own_room_without_sender.
    cbn [map]. rewrite app_nil_r. split.
    + intros to Hto. rewrite legacy_received_app, legacy_received_socket_emit.
      unfold socket_broadcast_emit. cbn [sockets].
      rewrite legacy_received_fanout by (by apply NoDup_filter).
      destruct Hto as [Hin| ->].
      * rewrite decide_False by (intros [_ ->]; by apply Hfresh).
        rewrite decide_True; [done|]. apply list_elem_of_filter.
        split; [|set_solver]. intros ->. by apply Hfresh.
      * rewrite decide_True by (split; [set_solver|done]).
        rewrite decide_False; [done|]. rewrite list_elem_of_filter.
        by intros [? _].
    + intros to count [Hin|Hin]%elem_of_app.
      * unfold socket_emit in Hin. case_decide.
        -- apply list_elem_of_singleton in Hin. discriminate Hin.
        -- by apply not_elem_of_nil in Hin.
      * unfold socket_broadcast_emit in Hin.
        apply list_elem_of_fmap in Hin as (x & [=] & _).
  - intros [l E]. unfold disconnect, on_disconnect.
    cbn [address_list sockets].
    destruct (Legacy.disconnect_untrack address id (address_list st))
      as [al'|e] eqn:Ed.
    2: { unfold Legacy.disconnect_untrack in Ed. rewrite E in Ed.
         by case_decide. }
    simpl. eexists. split; [done|]. cbn [fst snd address_list].
    assert (NoDup (filter (λ x, x ≠ id) (sockets st))) as Hnd'
      by (by apply NoDup_filter).
    split.
    + rewrite legacy_received_app, legacy_received_socket_emit.
      unfold socket_broadcast_emit. cbn [sockets].
      rewrite legacy_received_fanout by (by apply NoDup_filter).
      rewrite decide_False.
      * rewrite decide_False; [done|]. rewrite !list_elem_of_filter.
        by intros [? _].
      * rewrite list_elem_of_filter. by intros [[? _] _].
    + intros to Hin Hne.
      rewrite legacy_received_app, legacy_received_socket_emit.
      unfold socket_broadcast_emit. cbn [sockets].
      rewrite legacy_received_fanout by (by apply NoDup_filter).
      rewrite decide_False by (by intros [_ ?]).
      rewrite decide_True; [done|]. by rewrite !list_elem_of_filter.
Qed.

Lemma legacy_connection_events_witness :
  received "s1"
    (connect "10.0.0.7" "s2"
       {| address_list := {[ "10.0.0.7" := [Some "s1"] ]};
          sockets := ["s1"] |}).2
  = [EvCount (Legacy.users
                (Legacy.connection_track "10.0.0.7" "s2"
                   {[ "10.0.0.7" := [Some "s1"] ]}))].
Proof.
  refine (proj1 (proj1 (legacy_connection_events "10.0.0.7" "s2"
                          {| address_list := {[ "10.0.0.7" := [Some "s1"] ]};
                             sockets := ["s1"] |} _) _) "s1" _).
  - apply (bool_decide_unpack _). vm_compute. exact I.
  - apply (bool_decide_unpack _). vm_compute. exact I.
  - left. apply list_elem_of_here.
Defined.

End LegacyEvents.

(** ** The example middleware *)

Section MiddlewareFacts.
Import Middleware.
Implicit Types (API_KEY apiKey user : option string) (roles : list string).

Lemma authMiddleware_key API_KEY (key : string) (u : option User) :
  key ≠ EmptyString →
  authMiddleware API_KEY (Some key) u
  = if bool_decide (Some key = API_KEY) || bool_decide (key = "demo-key-12345")
    then Next (Some demo_admin)
    else Reply 403 "Invalid API key".
Proof. intros Hk. unfold authMiddleware. by destruct key. Qed.

(** X13. The API-key check lets a request through exactly when the
    [x-api-key] header is a non-empty string equal to the configured
    [API_KEY] or to the built-in ["demo-key-12345"], and then sets
    [req.user] to the admin user whatever it was; so the demo key passes
    under every configuration.  A missing or empty header is answered 401,
    every other key 403. *)
Theorem api_key_check (API_KEY apiKey : option string) (u : option User) :
  authMiddleware API_KEY (Some "demo-key-12345") u = Next (Some demo_admin)
  ∧ (∀ u', authMiddleware API_KEY apiKey u = Next u' ↔
           u' = Some demo_admin
           ∧ ∃ key, apiKey = Some key ∧ key ≠ EmptyString
                    ∧ (API_KEY = Some key ∨ key = "demo-key-12345"))
  ∧ ((apiKey = None ∨ apiKey = Some EmptyString) ↔
     ∃ e, authMiddleware API_KEY apiKey u = Reply 401 e)
  ∧ (∀ e, authMiddleware API_KEY apiKey u = Reply 403 e ↔
          e = "Invalid API key"
          ∧ ∃ key, apiKey = Some key ∧ key ≠ EmptyString
                   ∧ API_KEY ≠ Some key ∧ key ≠ "demo-key-12345").
Proof.
  split.
  { rewrite authMiddleware_key by done.
    rewrite (bool_decide_eq_true_2 ("demo-key-12345" = "demo-key-12345"))
      by done. by rewrite orb_true_r. }
  destruct apiKey as [key|].
  2: { split; [|split].
       - intros u'. split; [done|]. by intros (_ & key & [=] & _).
       - split; [eauto|]. by left.
       - intros e. split; [done|]. by intros (_ & key & [=] & _). }
  destruct (decide (key = EmptyString)) as [->|Hk].
  { split; [|split].
    - intros u'. split; [done|]. by intros (_ & key & [= <-] & ? & _).
    - split; [eauto|]. by right.
    - intros e. split; [done|]. by intros (_ & key & [= <-] & ? & _). }
  rewrite authMiddleware_key by done.
  destruct (decide (Some key = API_KEY)) as [Heq|Hne1];
    [rewrite (bool_decide_eq_true_2 _ Heq)
    |rewrite (bool_decide_eq_false_2 _ Hne1)]; simpl.
  - split; [|split].
    + intros u'. split; [intros [= <-]|by intros [-> _]].
      split; [done|]. exists key. eauto.
    + split; [intros [[=]|[= ->]]; done|]. by intros [e [=]].
    + intros e. split; [done|]. intros (_ & k & [= <-] & _ & Hn & _).
      by destruct Hn.
  - destruct (decide (key = "demo-key-12345")) as [Hd|Hnd];
      [rewrite (bool_decide_eq_true_2 _ Hd)
      |rewrite (bool_decide_eq_false_2 _ Hnd)].
    + split; [|split].
      * intros u'. split; [intros [= <-]|by intros [-> _]].
        split; [done|]. exists key. eauto.
      * split; [intros [[=]|[= ->]]; done|]. by intros [e [=]].
      * intros e. split; [done|]. by intros (_ & k & [= <-] & _ & _ & ?).
    + split; [|split].
      * intros u'. split; [done|].
        intros (_ & k & [= <-] & _ & [Hc|Hc]); [by destruct Hne1|done].
      * split; [intros [[=]|[= ->]]; done|]. by intros [e [=]].
      * intros e. split; [intros [= <-]|by intros [-> _]].
        split; [done|]. exists key. repeat split; done.
Qed.

Lemma api_key_check_witness :
  authMiddleware (Some "s3cret") (Some "s3cret") None = Next (Some demo_admin).
Proof.
  apply (proj1 (proj2 (api_key_check (Some "s3cret") (Some "s3cret") None))).
  split; [reflexivity|]. exists "s3cret".
  split; [reflexivity|]. split; [intros E; discriminate E|].
  left. reflexivity.
Defined.

(** X14. Behind the API-key check, [requireRole] lets a request through
    exactly when the key was accepted and ["admin"] is one of the required
    roles, because the check only ever sets the admin user; when the key
    was accepted and ["admin"] is not required the answer is 403
    "Insufficient permissions".  On its own, with no [req.user],
    [requireRole] answers 401 whatever the roles. *)
Theorem role_check_behind_api_key (API_KEY apiKey : option string)
    (roles : list string) (u : option User) :
  (∀ u', chain (authMiddleware API_KEY apiKey) (requireRole roles) u = Next u'
         ↔ authMiddleware API_KEY apiKey u = Next u' ∧ "admin" ∈ roles)
  ∧ (∀ u', authMiddleware API_KEY apiKey u = Next u' → "admin" ∉ roles →
           chain (authMiddleware API_KEY apiKey) (requireRole roles) u
           = Reply 403 "Insufficient permissions")
  ∧ requireRole roles None = Reply 401 "Authentication required".
Proof.
  split; [|split; [|done]].
  - intros u'. unfold chain.
    destruct (authMiddleware API_KEY apiKey u) as [status e|u1] eqn:Ea.
    + split; [done|]. by intros [? _].
    + apply api_key_check in Ea as [-> _]. unfold requireRole. simpl.
      destruct (decide ("admin" ∈ roles)) as [Hin|Hin];
        [rewrite (bool_decide_eq_true_2 _ Hin)
        |rewrite (bool_decide_eq_false_2 _ Hin)].
      * split; [by intros [= <-]|by intros [[= <-] _]].
      * split; [done|]. by intros [_ ?].
  - intros u' Ea Hin. unfold chain. rewrite Ea.
    apply api_key_check in Ea as [-> _]. unfold requireRole. simpl.
    by rewrite (bool_decide_eq_false_2 _ Hin).
Qed.

Lemma role_check_behind_api_key_witness :
  chain (authMiddleware None (Some "demo-key-12345")) (requireRole ["user"])
        None
  = Reply 403 "Insufficient permissions".
Proof.
  apply (proj1 (proj2 (role_check_behind_api_key None (Some "demo-key-12345")
                         ["user"] None)) (Some demo_admin)).
  - reflexivity.
  - intros H. apply list_elem_of_singleton in H. discriminate H.
Defined.

End MiddlewareFacts.

(** ** The two surfaces on the store *)

Section SurfacesOnTheStore.
Import Js Store Server Http HttpMore.
Context (schema : Schema).
Implicit Types (st : State) (req : Request).

Lemma same_init_when_complete_and_dueDate_left_out payload c :
  get payload "complete" = Ok c → truthy c = false →
  get payload "dueDate" = Ok Undefined →
  post_todo_init payload = add_todo_init payload.
Proof.
  intros Hc Hf Hd. unfold post_todo_init, add_todo_init.
  destruct (get payload "title") as [title|e]; simpl; [|done].
  destruct (get payload "description") as [description|e]; simpl; [|done].
  rewrite Hc. simpl.
  destruct (get payload "priority") as [priority|e]; simpl; [|done].
  rewrite Hd. simpl. unfold or at 1. by rewrite Hf.
Qed.

(** X15. The session surface and the HTTP surface do the same to the
    record store, for an HTTP request that passes the validators of its
    route.  Deleting with one id leaves the same store whether it comes as
    a [delete] command or as [DELETE /todos/:todoId]; creating leaves the
    same store whether the payload comes as an [add] command or is the
    body of [POST /todos] as the validators hand it on, when it has no (or
    a falsy) [complete] and no [dueDate]. *)
Theorem surfaces_write_alike
    (validationResult : Route → Request → Request * list Value)
    id data req req' now st :
  (validationResult DeleteTodo req = (req', []) →
   ∀ v, get data "id" = Ok v → get (params req') "todoId" = Ok v →
        db (on_delete schema id data st).1
        = db (delete_todo schema validationResult req now st).1)
  ∧ (validationResult PostTodo req = (req', []) →
     body req' = data →
     ∀ c, get data "complete" = Ok c → truthy c = false →
          get data "dueDate" = Ok Undefined →
          db (on_add schema id data now st).1
          = db (post_todo schema validationResult req now st).1).
Proof.
  split.
  - intros Hvr v Hd Hp. unfold delete_todo, validated. rewrite Hvr.
    unfold on_delete, delete_todo_handler.
    rewrite Hd, Hp. simpl.
    destruct (Todo_findByIdAndDelete schema v (db st)) as [[db' [t|]]|e];
      done.
  - intros Hvr Hb c Hc Hf Hdue. unfold post_todo, validated. rewrite Hvr.
    unfold on_add, post_todo_handler.
    rewrite Hb, (same_init_when_complete_and_dueDate_left_out data c)
      by done.
    destruct (add_todo_init data) as [init|e]; simpl; [|done].
    by destruct (Todo_save schema init now (db st)) as [[db' t]|e].
Qed.

End SurfacesOnTheStore.

Lemma surfaces_write_alike_witness :
  Server.db (Server.on_add Demo.schema "A"
               (Js.Obj [("title", Js.Str "abc")]) 9 Demo.with_record).1
  = Server.db (Http.post_todo Demo.schema Demo.validationResult
                 {| Http.params := Js.Obj []; Http.query := Js.Obj [];
                    Http.body := Js.Obj [("title", Js.Str "abc")] |}
                 9 Demo.with_record).1
  ∧ Server.db (Server.on_delete Demo.schema "A"
                 (Js.Obj [("id", Js.Num 0)]) Demo.with_record).1
    = Server.db (Http.delete_todo Demo.schema Demo.validationResult
                   {| Http.params := Js.Obj [("todoId", Js.Num 0)];
                      Http.query := Js.Obj []; Http.body := Js.Obj [] |}
                   9 Demo.with_record).1.
Proof.
  split.
  - apply (proj2 (surfaces_write_alike Demo.schema Demo.validationResult "A"
                    (Js.Obj [("title", Js.Str "abc")])
                    {| Http.params := Js.Obj []; Http.query := Js.Obj [];
                       Http.body := Js.Obj [("title", Js.Str "abc")] |}
                    {| Http.params := Js.Obj []; Http.query := Js.Obj [];
                       Http.body := Js.Obj [("title", Js.Str "abc")] |}
                    9 Demo.with_record) eq_refl eq_refl Js.Undefined);
      reflexivity.
  - apply (proj1 (surfaces_write_alike Demo.schema Demo.validationResult "A"
                    (Js.Obj [("id", Js.Num 0)])
                    {| Http.params := Js.Obj [("todoId", Js.Num 0)];
                       Http.query := Js.Obj []; Http.body := Js.Obj [] |}
                    {| Http.params := Js.Obj [("todoId", Js.Num 0)];
                       Http.query := Js.Obj []; Http.body := Js.Obj [] |}
                    9 Demo.with_record) eq_refl (Js.Num 0));
      reflexivity.
Defined.
